(** * Population dynamics simulation: a shallow embedding and its properties

    The development follows [PopulationSimulation.py].  The agent table is a
    Python list of dictionaries that every pass mutates in place; here the
    table is a [list person], an object reference is the position of the
    object in the table (the table never holds the same dictionary twice and
    never drops one), and an in-place field assignment is [alter] at that
    position.  The ambient [random] module is an explicit generator state
    threaded through every function that draws from it.  Exceptions are the
    [Raise] outcome of a small result monad. *)

From Stdlib Require Import ZArith Decimal DecimalString DecimalZ Ascii String.
From stdpp Require Import base tactics option list sorting gmap strings.

Local Open Scope string_scope.
Local Open Scope list_scope.
Local Open Scope Z_scope.

(** ** Exceptions and results *)

Inductive exn : Type :=
  | FileNotFoundError
  | IndexError
  | ValueError
  | StopIteration.

Inductive result (A : Type) : Type :=
  | Ok (a : A)
  | Raise (e : exn).
Arguments Ok {A} a.
Arguments Raise {A} e.

#[export] Instance result_ret : MRet result := λ A a, Ok a.
#[export] Instance result_bind : MBind result := λ A B k r,
  match r with
  | Ok a => k a
  | Raise e => Raise e
  end.

Definition is_ok {A} (r : result A) : bool :=
  match r with Ok _ => true | Raise _ => false end.

(** ** The entropy source

    [random.random()] returns the float [k / 2^53] for an integer
    [0 ≤ k < 2^53]; the interface hands out the numerator [k].  With [t] a
    float literal, [random.random() < t] holds exactly when
    [k < ⌈t · 2^53⌉], so every threshold of the source appears below as that
    integer cutoff and no floating-point arithmetic is left.
    [random.randint a b] is inclusive on both ends and [random.shuffle]
    permutes a list in place. *)

Class Entropy (G : Type) : Type := {
  random : G → Z * G;
  randint : Z → Z → G → Z * G;
  shuffle : list nat → G → list nat * G;
  random_range : ∀ g, 0 ≤ (random g).1 < 2 ^ 53;
  randint_range : ∀ a b g, a ≤ b → a ≤ (randint a b g).1 ≤ b;
  shuffle_perm : ∀ l g, (shuffle l g).1 ≡ₚ l
}.

(** cutoffs [⌈t · 2^53⌉] of the float literals of the source *)
Definition cut_0_005 : Z := 45035996273705.
Definition cut_0_01 : Z := 90071992547410.
Definition cut_0_02 : Z := 180143985094820.
Definition cut_0_05 : Z := 450359962737050.
Definition cut_0_15 : Z := 1351079888211149.
Definition cut_0_35 : Z := 3152519739159347.
Definition cut_0_5 : Z := 4503599627370496.

(** A scripted generator: the state is the list of the outcomes still to be
    handed out, reduced into the range of the call.  An exhausted script
    yields the least outcome and leaves lists in order. *)
Definition script_random (g : list Z) : Z * list Z :=
  match g with
  | [] => (0, [])
  | k :: g' => (k `mod` 2 ^ 53, g')
  end.

Definition script_randint (a b : Z) (g : list Z) : Z * list Z :=
  match g with
  | [] => (a, [])
  | k :: g' => (a + k `mod` (b - a + 1), g')
  end.

Definition script_shuffle (l : list nat) (g : list Z) : list nat * list Z :=
  match g with
  | [] => (l, [])
  | k :: g' => (if Z.odd k then reverse l else l, g')
  end.

#[export] Program Instance script_entropy : Entropy (list Z) := {|
  random := script_random;
  randint := script_randint;
  shuffle := script_shuffle
|}.
Next Obligation.
  intros [|k g]; simpl; [lia|]. apply Z.mod_pos_bound. lia.
Qed.
Next Obligation.
  intros a b [|k g] Hab; simpl; [lia|].
  pose proof (Z.mod_pos_bound k (b - a + 1)). lia.
Qed.
Next Obligation.
  intros l [|k g]; simpl; [done|].
  destruct (Z.odd k); [apply reverse_Permutation | done].
Qed.

(** ** The agent record

    One dictionary of the source, with its eight keys.  Every numeric field
    is a Python [int], hence an unbounded [Z]; [alive] and [fertility] are
    the integers [0] and [1], and [partner_id = -1] stands for no partner. *)

Record person : Type := mk_person {
  id : Z;
  sex : string;
  age : Z;
  alive : Z;
  health : Z;
  fertility : Z;
  partner_id : Z;
  children_count : Z
}.

#[export] Instance person_eq_dec : EqDecision person.
Proof. solve_decision. Defined.

Definition set_age (v : Z) (p : person) : person :=
  mk_person (id p) (sex p) v (alive p) (health p) (fertility p)
            (partner_id p) (children_count p).
Definition set_alive (v : Z) (p : person) : person :=
  mk_person (id p) (sex p) (age p) v (health p) (fertility p)
            (partner_id p) (children_count p).
Definition set_fertility (v : Z) (p : person) : person :=
  mk_person (id p) (sex p) (age p) (alive p) (health p) v
            (partner_id p) (children_count p).
Definition set_partner_id (v : Z) (p : person) : person :=
  mk_person (id p) (sex p) (age p) (alive p) (health p) (fertility p)
            v (children_count p).
Definition set_children_count (v : Z) (p : person) : person :=
  mk_person (id p) (sex p) (age p) (alive p) (health p) (fertility p)
            (partner_id p) v.

Definition ids (population : list person) : list Z := id <$> population.

(** ** Vital-rate passes *)

Section Simulation.
Context {G : Type} `{Entropy G}.

(** One [random.random() < t] test followed by [p["alive"] = 0]. *)
Definition mortality_check (cutoff : Z) (p : person) (g : G) : person * G :=
  let '(death_prob, g') := random g in
  (if death_prob <? cutoff then set_alive 0 p else p, g').

(** Body of the loop of [death]: a stand-alone [if] for [age < 1], then one
    [if]/[elif] chain whose last branch is [age >= 85]. *)
Definition death_one (p : person) (g : G) : person * G :=
  let '(p, g) :=
    if age p <? 1 then mortality_check cut_0_05 p g else (p, g) in
  if (age p <? 15) && (age p >? 1) then mortality_check cut_0_01 p g
  else if (age p <? 40) && (age p >? 15) then mortality_check cut_0_005 p g
  else if (age p <? 55) && (age p >? 40) then mortality_check cut_0_02 p g
  else if (age p <? 70) && (age p >? 55) then mortality_check cut_0_05 p g
  else if (age p <? 85) && (age p >? 70) then mortality_check cut_0_15 p g
  else if age p >=? 85 then mortality_check cut_0_35 p g
  else (p, g).

Fixpoint death (population : list person) (g : G) : list person * G :=
  match population with
  | [] => ([], g)
  | p :: rest =>
      let '(p', g1) := death_one p g in
      let '(rest', g2) := death rest g1 in
      (p' :: rest', g2)
  end.

Definition aging_one (p : person) : person :=
  if alive p =? 1 then set_age (age p + 5) p else p.

Definition aging_update (population : list person) : list person :=
  aging_one <$> population.

Definition fertility_one (p : person) : person :=
  let p :=
    if (age p >? 18) && (fertility p =? 0) then set_fertility 1 p else p in
  if age p >? 65 then set_fertility 0 p else p.

Definition fertility_update (population : list person) : list person :=
  fertility_one <$> population.

Definition census (population : list person) : nat :=
  length (filter (λ p, alive p = 1) population).

(** ** Pairing *)

(** [get_single_people]: references to the living, unpartnered agents, men
    and women apart, in table order.  [i] is the position of the head of
    the remaining rows. *)
Fixpoint single_people_from (i : nat) (rows : list person)
  : list nat * list nat :=
  match rows with
  | [] => ([], [])
  | p :: rest =>
      let '(singleMen, singleWomen) := single_people_from (S i) rest in
      if (alive p =? 1) && (partner_id p =? -1) then
        if String.eqb (sex p) "M" then (i :: singleMen, singleWomen)
        else if String.eqb (sex p) "F" then (singleMen, i :: singleWomen)
        else (singleMen, singleWomen)
      else (singleMen, singleWomen)
  end.

Definition get_single_people (population : list person)
  : list nat * list nat :=
  single_people_from 0 population.

(** [zip] stops at the shorter list, as [range(min(len, len))] does. *)
Definition pair_people (singleMen singleWomen : list nat) (g : G)
  : list (nat * nat) * G :=
  let '(singleMen, g1) := shuffle singleMen g in
  let '(singleWomen, g2) := shuffle singleWomen g1 in
  (zip singleMen singleWomen, g2).

(** One iteration of [apply_pairs].  Both assignments read the other
    member's [id] from the table as it is at that moment.  A reference of
    the source always designates a row; a position past the end of the
    table, which no list built by [get_single_people] contains, leaves the
    table as it is. *)
Definition apply_pair (population : list person) (pair : nat * nat)
  : list person :=
  let '(man, woman) := pair in
  match population !! woman with
  | None => population
  | Some w =>
      let population := alter (set_partner_id (id w)) man population in
      match population !! man with
      | None => population
      | Some m => alter (set_partner_id (id m)) woman population
      end
  end.

Definition apply_pairs (pairs : list (nat * nat)) (population : list person)
  : list person :=
  foldl apply_pair population pairs.

(** ** Reproduction *)

(** [next(x for x in population if x["id"] == pid)]: the first row with
    that id, [StopIteration] when there is none. *)
Definition find_partner (pid : Z) (population : list person)
  : result (nat * person) :=
  match list_find (λ x, id x = pid) population with
  | Some found => Ok found
  | None => Raise StopIteration
  end.

Fixpoint couples_from (population : list person) (i : nat)
    (rows : list person) (visited : gset Z) : result (list (nat * nat)) :=
  match rows with
  | [] => Ok []
  | p :: rest =>
      if decide (partner_id p ≠ -1 ∧ id p ∉ visited) then
        '(j, partner) ← find_partner (partner_id p) population;
        couples ← couples_from population (S i) rest
                    ({[id partner]} ∪ ({[id p]} ∪ visited));
        Ok ((i, j) :: couples)
      else couples_from population (S i) rest visited
  end.

Definition get_all_couples (population : list person)
  : result (list (nat * nat)) :=
  couples_from population 0 population ∅.

(** [max(p["id"] for p in population)], [ValueError] on an empty table. *)
Definition max_id (population : list person) : result Z :=
  match population with
  | [] => Raise ValueError
  | p :: rest => Ok (foldl (λ m q, Z.max m (id q)) (id p) rest)
  end.

Definition new_child (next_id : Z) (sx : string) (h : Z) : person :=
  mk_person next_id sx 0 1 h 0 (-1) 0.

Definition add_child (p : person) : person :=
  set_children_count (children_count p + 1) p.

(** State of the loop of [reproduce]: the table, [next_id],
    [new_children] and the generator. *)
Record repro_state : Type := mk_repro {
  r_population : list person;
  r_next_id : Z;
  r_new_children : list person;
  r_gen : G
}.

(** Body of the loop of [reproduce].  The two [+= 1] go through the table,
    so a couple made of one row twice would be counted twice.  As in
    [apply_pair], a position past the end of the table changes nothing. *)
Definition reproduce_couple (st : repro_state) (couple : nat * nat)
  : repro_state :=
  let '(man, woman) := couple in
  match r_population st !! man, r_population st !! woman with
  | Some m, Some w =>
      if (alive m =? 1) && (alive w =? 1) then
        if (fertility m =? 1) && (fertility w =? 1) then
          let '(conception, g1) := random (r_gen st) in
          if conception <? cut_0_5 then
            let '(coin, g2) := randint 0 1 g1 in
            let sx := if coin =? 1 then "M" else "F" in
            let '(h, g3) := randint 70 100 g2 in
            let child := new_child (r_next_id st) sx h in
            let population := alter add_child man (r_population st) in
            let population := alter add_child woman population in
            mk_repro population (r_next_id st + 1)
                     (r_new_children st ++ [child]) g3
          else mk_repro (r_population st) (r_next_id st)
                        (r_new_children st) g1
        else st
      else st
  | _, _ => st
  end.

(** The [for man, woman in ...] loop. *)
Definition reproduce_loop (st : repro_state) (couples : list (nat * nat))
  : repro_state :=
  foldl reproduce_couple st couples.

Definition reproduce (population : list person) (couples : list (nat * nat))
    (g : G) : result (list person * G) :=
  m ← max_id population;
  let st := reproduce_loop (mk_repro population (m + 1) [] g) couples in
  Ok (r_population st ++ r_new_children st, r_gen st).

(** ** One step: the body of [if inp == ""] in [main], up to the save *)

Definition pairing (population : list person) (g : G) : list person * G :=
  let '(men, women) := get_single_people population in
  let '(pairs, g') := pair_people men women g in
  (apply_pairs pairs population, g').

Definition step (population : list person) (g : G)
  : result (list person * G) :=
  let '(population, g) := death population g in
  let population := aging_update population in
  let population := fertility_update population in
  let '(population, g) := pairing population g in
  all_couples ← get_all_couples population;
  reproduce population all_couples g.

(** ** Initial population *)

Fixpoint founders (n : nat) (sx : string) (next_id : Z) (g : G)
  : list person * G :=
  match n with
  | O => ([], g)
  | S n' =>
      let '(a, g1) := randint 18 40 g in
      let '(h, g2) := randint 70 100 g1 in
      let '(rest, g3) := founders n' sx (next_id + 1) g2 in
      (mk_person next_id sx a 1 h 1 (-1) 0 :: rest, g3)
  end.

Definition generate_initial_population (g : G) : list person * G :=
  let '(men, g1) := founders 10 "M" 0 g in
  let '(women, g2) := founders 10 "F" 10 g1 in
  (men ++ women, g2).

End Simulation.

(** ** Python string primitives used by the snapshot store

    Texts are ASCII.  The content of the file is the text as Python's text
    mode hands it over, with ["\n"] the line terminator. *)

Definition newline : ascii := "010"%char.
Definition comma : ascii := ","%char.

(** [str.isspace] on ASCII: tab to carriage return, the four separators
    [0x1c]-[0x1f], and the blank. *)
Definition is_space (c : ascii) : bool :=
  let n := nat_of_ascii c in
  ((9 <=? n) && (n <=? 13) || (28 <=? n) && (n <=? 32))%nat.

Fixpoint lstrip (s : string) : string :=
  match s with
  | EmptyString => EmptyString
  | String c s' => if is_space c then lstrip s' else s
  end.

Fixpoint rstrip (s : string) : string :=
  match s with
  | EmptyString => EmptyString
  | String c s' =>
      match rstrip s' with
      | EmptyString => if is_space c then EmptyString else String c EmptyString
      | r => String c r
      end
  end.

Definition strip (s : string) : string := rstrip (lstrip s).

(** [f.readlines()]: the lines of the text, each with its terminator, the
    last one possibly without. *)
Fixpoint readlines (s : string) : list string :=
  match s with
  | EmptyString => []
  | String c s' =>
      if Ascii.eqb c newline then String c EmptyString :: readlines s'
      else match readlines s' with
           | [] => [String c EmptyString]
           | l :: ls => String c l :: ls
           end
  end.

(** [s.split(sep)] for a one-character separator: never empty. *)
Fixpoint split (sep : ascii) (s : string) : list string :=
  match s with
  | EmptyString => [EmptyString]
  | String c s' =>
      if Ascii.eqb c sep then EmptyString :: split sep s'
      else match split sep s' with
           | [] => [String c EmptyString]
           | f :: fs => String c f :: fs
           end
  end.

(** [str(n)] of an [int]. *)
Definition py_str (z : Z) : string := NilZero.string_of_int (Z.to_int z).

(** Digits of an [int] literal: at least one digit, single underscores
    allowed between digits only.  [after_digit] tells whether the previous
    character was a digit. *)
Fixpoint py_digits (after_digit : bool) (s : string) : option uint :=
  match s with
  | EmptyString => if after_digit then Some Nil else None
  | String c s' =>
      if Ascii.eqb c "_"%char then
        if after_digit then py_digits false s' else None
      else uint_of_char c (py_digits true s')
  end.

(** An [int] literal: an optional sign, then the digits. *)
Definition int_literal (s : string) : option Z :=
  match s with
  | EmptyString => None
  | String c s' =>
      if Ascii.eqb c "+"%char then Z.of_uint <$> py_digits false s'
      else if Ascii.eqb c "-"%char then
        (λ d, - Z.of_uint d) <$> py_digits false s'
      else Z.of_uint <$> py_digits false s
  end.

(** White space for [int] on an ASCII [str]: C's [isspace], that is tab to
    carriage return and the blank.  The separators [0x1c]-[0x1f], which
    [str.strip] removes, are not skipped: [int("\x1c5")] raises. *)
Definition is_int_space (c : ascii) : bool :=
  let n := nat_of_ascii c in
  ((9 <=? n) && (n <=? 13) || (n =? 32))%nat.

Fixpoint int_lstrip (s : string) : string :=
  match s with
  | EmptyString => EmptyString
  | String c s' => if is_int_space c then int_lstrip s' else s
  end.

Fixpoint int_rstrip (s : string) : string :=
  match s with
  | EmptyString => EmptyString
  | String c s' =>
      match int_rstrip s' with
      | EmptyString =>
          if is_int_space c then EmptyString else String c EmptyString
      | r => String c r
      end
  end.

(** [int(s)] of an ASCII [str]: leading and trailing [isspace] characters
    are skipped; [ValueError] when what is left is not a literal. *)
Definition py_int (s : string) : result Z :=
  match int_literal (int_rstrip (int_lstrip s)) with
  | Some z => Ok z
  | None => Raise ValueError
  end.

(** [item[k]], [IndexError] past the end. *)
Definition item_at (item : list string) (k : nat) : result string :=
  match item !! k with
  | Some field => Ok field
  | None => Raise IndexError
  end.

(** ** Snapshot store *)

(** The dictionary display of [load_population]; its entries are evaluated
    in order, so the first failing one decides the exception. *)
Definition parse_person (item : list string) : result person :=
  f0 ← item_at item 0; v_id ← py_int f0;
  v_sex ← item_at item 1;
  f2 ← item_at item 2; v_age ← py_int f2;
  f3 ← item_at item 3; v_alive ← py_int f3;
  f4 ← item_at item 4; v_health ← py_int f4;
  f5 ← item_at item 5; v_fertility ← py_int f5;
  f6 ← item_at item 6; v_partner ← py_int f6;
  f7 ← item_at item 7; v_children ← py_int f7;
  Ok (mk_person v_id v_sex v_age v_alive v_health v_fertility
                v_partner v_children).

Fixpoint load_lines (lines : list string) : result (list person) :=
  match lines with
  | [] => Ok []
  | line :: rest =>
      let line := strip line in
      if String.eqb line "" then load_lines rest
      else
        p ← parse_person (split comma line);
        population ← load_lines rest;
        Ok (p :: population)
  end.

(** [file] is the snapshot: [None] when the path does not exist. *)
Definition load_population (file : option string) : result (list person) :=
  match file with
  | None => Raise FileNotFoundError
  | Some text => load_lines (tail (readlines text))
  end.

Definition header : string :=
  "id,sex,age,alive,health,fertility,partner_id,children_count".

Definition save_line (p : person) : string :=
  py_str (id p) +:+ "," +:+ sex p +:+ "," +:+ py_str (age p) +:+ ","
  +:+ py_str (alive p) +:+ "," +:+ py_str (health p) +:+ ","
  +:+ py_str (fertility p) +:+ "," +:+ py_str (partner_id p) +:+ ","
  +:+ py_str (children_count p) +:+ String newline "".

Fixpoint save_lines (population : list person) : string :=
  match population with
  | [] => ""
  | p :: rest => save_line p +:+ save_lines rest
  end.

Definition save_population (population : list person) : string :=
  header +:+ String newline "" +:+ save_lines population.

(** The [try]/[except] at the head of the loop of [main]: the bare
    [except:] takes every exception of the load. *)
Definition load_or_initialize {G} `{Entropy G} (file : option string) (g : G)
  : list person * option string * G :=
  let loaded :=
    population ← load_population file;
    if Nat.eqb (length population) 0 then Raise FileNotFoundError
    else Ok population in
  match loaded with
  | Ok population => (population, file, g)
  | Raise _ =>
      let '(population, g') := generate_initial_population g in
      (population, Some (save_population population), g')
  end.



(** * Vocabulary of the properties *)

(** ** Rows and tables *)

(** Fertility of a row after the fertility pass, as the two rules give it. *)
Definition fertility_after (p : person) : Z :=
  if decide (age p > 65) then 0
  else if decide (age p > 18 ∧ fertility p = 0) then 1
  else fertility p.

(** The five defaults of a newborn (sex and health are drawn). *)
Definition newborn (p : person) : Prop :=
  age p = 0 ∧ alive p = 1 ∧ fertility p = 0 ∧ partner_id p = -1
  ∧ children_count p = 0.

(** The link view of a table: only [id] and [partner_id] matter for
    partnership. *)
Definition links (population : list person) : list (Z * Z) :=
  (λ p, (id p, partner_id p)) <$> population.

(** [population'] is [population] with its ids kept in place and followed
    by consecutive fresh ids, starting one past the greatest id of
    [population]; no id occurs twice. *)
Definition fresh_ids_appended (population population' : list person) : Prop :=
  NoDup (ids population')
  ∧ ∃ m n, max_id population = Ok m
      ∧ ids population' = ids population ++ seqZ (m + 1) n
      ∧ ∀ x y, x ∈ ids population → y ∈ seqZ (m + 1) n → x < y.

(** ** Partnership *)

(** Every partner link points at a row that points back. *)
Definition partner_symmetric (population : list person) : Prop :=
  ∀ i p, population !! i = Some p → partner_id p ≠ -1 →
    ∃ j q, population !! j = Some q
           ∧ id q = partner_id p ∧ partner_id q = id p.

(** The partner of an agent is one row, and an agent is the partner of at
    most one row. *)
Definition one_partner (population : list person) : Prop :=
  ∀ i j k p q r,
    population !! i = Some p → population !! j = Some q →
    population !! k = Some r →
    (id q = partner_id p → id r = partner_id p → j = k)
    ∧ (partner_id q = id p → partner_id r = id p → j = k).

(** The invariant of the data model: distinct, non-negative ids and
    symmetric partnership. *)
Definition table_invariant (population : list person) : Prop :=
  NoDup (ids population)
  ∧ Forall (λ x, 0 ≤ x) (ids population)
  ∧ partner_symmetric population.

(** Every partner link points at a row of the table. *)
Definition referential_integrity (population : list person) : Prop :=
  ∀ p, p ∈ population → partner_id p ≠ -1 →
    ∃ q, q ∈ population ∧ id q = partner_id p.

(** A checker for [table_invariant]. *)
Definition partner_symmetric_b (population : list person) : bool :=
  forallb (λ p, (partner_id p =? -1)
                || existsb (λ q, (id q =? partner_id p)
                                 && (partner_id q =? id p)) population)
          population.

Definition table_invariant_b (population : list person) : bool :=
  bool_decide (NoDup (ids population))
  && forallb (λ x, 0 <=? x) (ids population)
  && partner_symmetric_b population.

(** Pairs with no reference in common. *)
Definition disjoint_pairs (pairs : list (nat * nat)) : Prop :=
  NoDup (pairs.*1 ++ pairs.*2).

(** ** Couples *)

(** Two rows that hold each other's id. *)
Definition mutual (population : list person) (a b : nat) : Prop :=
  ∃ pa pb, population !! a = Some pa ∧ population !! b = Some pb
           ∧ partner_id pa = id pb ∧ partner_id pb = id pa.

(** Number of entries of [couples] that are the pair of rows [a] and [b],
    in either order. *)
Definition emitted (a b : nat) (couples : list (nat * nat)) : nat :=
  length (filter (λ c, c = (a, b) ∨ c = (b, a)) couples).

(** The ids marked visited before row [i] is examined: those of the rows
    below [i] that have a partner, and those of their partners. *)
Definition seen_upto (population : list person) (i : nat)
    (visited : gset Z) : Prop :=
  ∀ k r, population !! k = Some r →
    id r ∈ visited ↔
    partner_id r ≠ -1
    ∧ ((k < i)%nat
       ∨ ∃ k' q, (k' < i)%nat ∧ population !! k' = Some q
                 ∧ id q = partner_id r).

(** ** Snapshot text *)

(** The seven positions read with [int]. *)
Definition int_fields : list nat := [0; 2; 3; 4; 5; 6; 7]%nat.

(** A record with fewer than eight fields, or with a value that [int]
    rejects in one of the seven integer fields. *)
Definition malformed (item : list string) : bool :=
  (length item <? 8)%nat
  || existsb (λ k, match item !! k with
                   | Some field => negb (is_ok (py_int field))
                   | None => true
                   end) int_fields.

Fixpoint string_forall (P : ascii → bool) (s : string) : bool :=
  match s with
  | EmptyString => true
  | String c s' => P c && string_forall P s'
  end.

(** A character that text mode can hand over from an ASCII file: below 128,
    and no carriage return, which universal newlines turn into ["\n"]. *)
Definition text_char (c : ascii) : bool :=
  let n := nat_of_ascii c in ((n <? 128) && negb (n =? 13))%nat.

(** Not white space, hence not a line terminator. *)
Definition solid (c : ascii) : bool := negb (is_space c).

(** Neither white space nor the delimiter. *)
Definition plain (c : ascii) : bool := solid c && negb (Ascii.eqb c comma).

Definition digit_or_minus (c : ascii) : bool :=
  let n := nat_of_ascii c in ((48 <=? n) && (n <=? 57) || (n =? 45))%nat.

(** The line of [save_population] for [p], without its terminator. *)
Definition record (p : person) : string :=
  py_str (id p) +:+ String comma (sex p +:+ String comma (
  py_str (age p) +:+ String comma (py_str (alive p) +:+ String comma (
  py_str (health p) +:+ String comma (py_str (fertility p) +:+ String comma (
  py_str (partner_id p) +:+ String comma (py_str (children_count p)))))))).

(** A row that [save_population] can write without ambiguity. *)
Definition valid_person (p : person) : Prop := sex p = "M" ∨ sex p = "F".

(** ** Sample rows, tables, snapshots and scripts *)

Definition p_age_15 : person := mk_person 1 "F" 15 1 80 0 (-1) 0.
Definition p_age_85 : person := mk_person 0 "M" 85 1 80 0 (-1) 0.
Definition p_dead_20 : person := mk_person 4 "F" 20 0 60 0 (-1) 0.

(** Aged 84 on entry: with a draw between the cutoffs of 0.15 and 0.35 the
    agent survives, which it would not if mortality saw the age 89. *)
Definition p_age_84 : person := mk_person 0 "M" 84 1 80 1 (-1) 0.

Definition singles_3_4 : list person :=
  [mk_person 3 "M" 30 1 80 1 (-1) 0; mk_person 4 "F" 28 1 80 1 (-1) 0].

Definition couple_5_6 : list person :=
  [mk_person 5 "M" 30 1 80 1 6 0; mk_person 6 "F" 28 1 80 1 5 0].

(** Both survive, nobody is single, the conception draw succeeds, the child
    is a boy of health 75. *)
Definition script_birth : list Z :=
  [2 ^ 53 - 1; 2 ^ 53 - 1; 0; 0; 0; 1; 5].

Definition couple_5_6_after : list person :=
  [mk_person 5 "M" 35 1 80 1 6 1; mk_person 6 "F" 33 1 80 1 5 1;
   mk_person 7 "M" 0 1 75 0 (-1) 0].

(** [couple_5_6] after [reproduce] alone, the conception draw succeeding:
    both counters at one, the boy of health 75 behind the two rows. *)
Definition script_conception : list Z := [0; 1; 5].

Definition couple_5_6_born : list person :=
  [mk_person 5 "M" 30 1 80 1 6 1; mk_person 6 "F" 28 1 80 1 5 1;
   mk_person 7 "M" 0 1 75 0 (-1) 0].

(** Ids 1 and 2 are partners of each other; ids 0 and 5 point at them
    without being pointed at, and come first. *)
Definition crossed_table : list person :=
  [mk_person 0 "M" 30 1 80 1 1 0; mk_person 5 "M" 30 1 80 1 2 0;
   mk_person 1 "F" 30 1 80 1 2 0; mk_person 2 "M" 30 1 80 1 1 0].

(** A snapshot whose only row names a partner that is not there. *)
Definition dangling_snapshot : string :=
  header +:+ String newline ("0,M,30,1,80,1,9,0" +:+ String newline "").

Definition dangling_table : list person :=
  [mk_person 0 "M" 30 1 80 1 9 0].

(** Seven fields instead of eight, and nine instead of eight. *)
Definition short_snapshot : string :=
  header +:+ String newline ("1,M,2,1,1,1,-1" +:+ String newline "").

Definition long_snapshot : string :=
  header +:+ String newline ("1,M,2,1,1,1,-1,0,77" +:+ String newline "").

(** Eight fields, the age written behind the separator [0x1c]: white space
    for [str.strip], not for [int]. *)
Definition separator_field : string := String "028"%char "5".

Definition separator_line : string :=
  "1,M," +:+ separator_field +:+ ",1,1,1,-1,0" +:+ String newline "".

Definition separator_snapshot : string :=
  header +:+ String newline separator_line.

(** ** Further vocabulary *)

(** The band of the mortality table an age falls in, as the cutoff of its
    one check; [None] in the gaps. *)
Definition death_cutoff (a : Z) : option Z :=
  if a <? 1 then Some cut_0_05
  else if (1 <? a) && (a <? 15) then Some cut_0_01
  else if (15 <? a) && (a <? 40) then Some cut_0_005
  else if (40 <? a) && (a <? 55) then Some cut_0_02
  else if (55 <? a) && (a <? 70) then Some cut_0_05
  else if (70 <? a) && (a <? 85) then Some cut_0_15
  else if 85 <=? a then Some cut_0_35
  else None.

(** A founding agent of the given sex. *)
Definition founder (sx : string) (p : person) : Prop :=
  sex p = sx ∧ 18 ≤ age p ≤ 40 ∧ 70 ≤ health p ≤ 100
  ∧ alive p = 1 ∧ fertility p = 1 ∧ partner_id p = -1
  ∧ children_count p = 0.

(** Children counted over the whole table. *)
Definition total_children (population : list person) : Z :=
  foldr (λ p total, children_count p + total) 0 population.

(** A living agent without partner, of the given sex. *)
Definition living_single (sx : string) (p : person) : Prop :=
  alive p = 1 ∧ partner_id p = -1 ∧ sex p = sx.

(** What one step may do to a row that was in the table. *)
Definition row_evolves (p p' : person) : Prop :=
  id p' = id p ∧ sex p' = sex p ∧ health p' = health p
  ∧ (alive p' = alive p ∨ alive p' = 0)
  ∧ (age p' = age p ∨ age p' = age p + 5)
  ∧ children_count p ≤ children_count p'.

(** An entry [c] of the list of couples: its first row has a partner id,
    not yet marked in [visited], and its second row is the first row of the
    table with that id. *)
Definition couple_entry (population : list person) (visited : gset Z)
    (c : nat * nat) : Prop :=
  ∃ p q, population !! c.1 = Some p ∧ population !! c.2 = Some q
    ∧ partner_id p ≠ -1 ∧ id q = partner_id p
    ∧ (∀ k r, population !! k = Some r → (k < c.2)%nat →
              id r ≠ partner_id p)
    ∧ id p ∉ visited.

(** The first row of the later entry [c'] has neither the id of the first
    nor the id of the second row of [c]. *)
Definition later_apart (population : list person) (c c' : nat * nat) : Prop :=
  (c.1 < c'.1)%nat
  ∧ ∀ p q p', population !! c.1 = Some p → population !! c.2 = Some q →
      population !! c'.1 = Some p' → id p' ≠ id p ∧ id p' ≠ id q.

(** A row appended by [reproduce]: the defaults of a newborn, a sex that is
    "M" or "F", a health within 70..100. *)
Definition newcomer (p : person) : Prop :=
  newborn p ∧ valid_person p ∧ 70 ≤ health p ≤ 100.


(** Not the line terminator. *)
Definition not_newline (c : ascii) : bool := negb (Ascii.eqb c newline).

(** * Properties *)

(** ** Setters *)

Lemma set_alive_same p : set_alive (alive p) p = p.
Proof. by destruct p. Qed.

Lemma set_partner_id_same p : set_partner_id (partner_id p) p = p.
Proof. by destruct p. Qed.

Lemma set_children_count_same p :
  set_children_count (children_count p) p = p.
Proof. by destruct p. Qed.

Lemma set_partner_id_twice v v' p :
  set_partner_id v (set_partner_id v' p) = set_partner_id v p.
Proof. done. Qed.

Lemma set_children_count_twice v v' p :
  set_children_count v (set_children_count v' p) = set_children_count v p.
Proof. done. Qed.

(** ** The mortality pass, row by row *)

Section Mortality.
Context {G : Type} `{Entropy G}.

Lemma mortality_check_fields cutoff p g :
  ∃ v, (mortality_check cutoff p g).1 = set_alive v p
       ∧ (v = 0 ∨ v = alive p).
Proof.
  unfold mortality_check. destruct (random g) as [k g'].
  destruct (k <? cutoff); simpl; [by eauto|].
  exists (alive p). rewrite set_alive_same. auto.
Qed.

(** A row leaves [death_one] with at most its [alive] field cleared. *)
Lemma death_one_fields p g :
  ∃ v, (death_one p g).1 = set_alive v p ∧ (v = 0 ∨ v = alive p).
Proof.
  unfold death_one.
  destruct (age p <? 1) eqn:Hbaby.
  - destruct (mortality_check_fields cut_0_05 p g) as (v & Hv & Hor).
    destruct (mortality_check cut_0_05 p g) as [p1 g1]. simpl in Hv. subst p1.
    replace (age (set_alive v p)) with (age p) by done.
    assert ((age p <? 15) && (age p >? 1) = false) as ->
      by (apply andb_false_iff; right; lia).
    assert ((age p <? 40) && (age p >? 15) = false) as ->
      by (apply andb_false_iff; right; lia).
    assert ((age p <? 55) && (age p >? 40) = false) as ->
      by (apply andb_false_iff; right; lia).
    assert ((age p <? 70) && (age p >? 55) = false) as ->
      by (apply andb_false_iff; right; lia).
    assert ((age p <? 85) && (age p >? 70) = false) as ->
      by (apply andb_false_iff; right; lia).
    assert ((age p >=? 85) = false) as -> by lia.
    eauto.
  - repeat match goal with
           | |- context [if ?b then _ else _] => destruct b
           end;
      try apply mortality_check_fields.
    exists (alive p). rewrite set_alive_same. auto.
Qed.

Lemma death_length population g :
  length (death population g).1 = length population.
Proof.
  revert g. induction population as [|p rest IH]; intros g; [done|].
  simpl. destruct (death_one p g) as [p' g1].
  specialize (IH g1). destruct (death rest g1) as [rest' g2].
  simpl in *. by rewrite IH.
Qed.

(** Every row of the table after [death] is [death_one] of the row that
    entered the pass, at some state of the generator. *)
Lemma death_lookup population g i p :
  population !! i = Some p →
  ∃ gi, (death population g).1 !! i = Some (death_one p gi).1.
Proof.
  revert g i. induction population as [|q rest IH]; intros g i Hi; [done|].
  simpl. destruct (death_one q g) as [q' g1] eqn:Hq.
  destruct i as [|i]; simpl in Hi.
  - injection Hi as ->. exists g. rewrite Hq.
    by destruct (death rest g1).
  - destruct (IH g1 i Hi) as [gi Hgi]. exists gi.
    by destruct (death rest g1).
Qed.

End Mortality.

(** ** Mortality at the band boundaries *)

(** C3, as stated, fails at age 85: the last branch of the chain is
    [age >= 85], so an agent aged exactly 85 is checked against 0.35.  With
    the draw 0 the agent dies and the draw is consumed. *)
Lemma death_checks_age_85 :
  age p_age_85 ∈ [1; 15; 40; 55; 70; 85]
  ∧ alive p_age_85 = 1
  ∧ death_one p_age_85 [0] = (set_alive 0 p_age_85, []).
Proof. split; [set_solver | done]. Qed.

(** C3 (amended): an agent whose age is exactly 1, 15, 40, 55 or 70 gets no
    mortality check: [death_one] returns the row and the generator as they
    were, whatever the generator, and the row is the same in the table after
    the whole pass.  An agent aged exactly 85 does get the check of the last
    band, with the cutoff of 0.35. *)
Theorem death_boundary_ages {G} `{Entropy G}
    (population : list person) (g : G) (i : nat) (p : person) :
  population !! i = Some p →
  (age p ∈ [1; 15; 40; 55; 70] →
     (∀ gi : G, death_one p gi = (p, gi))
     ∧ (death population g).1 !! i = Some p)
  ∧ (age p = 85 → ∀ gi : G, death_one p gi = mortality_check cut_0_35 p gi).
Proof.
  intros Hi. split.
  - intros Hage.
    assert (∀ gi : G, death_one p gi = (p, gi)) as Hone.
    { intros gi. unfold death_one. set_unfold in Hage.
      destruct p; simpl in Hage.
      destruct_or!; try done; subst; reflexivity. }
    split; [done|].
    destruct (death_lookup population g i p Hi) as [gi ->].
    by rewrite Hone.
  - intros Hage gi. destruct p; simpl in Hage; subst. reflexivity.
Qed.

Lemma death_boundary_ages_witness :
  ((∀ gi : list Z, death_one p_age_15 gi = (p_age_15, gi))
   ∧ (death [p_age_85; p_age_15] [7; 8]).1 !! 1%nat = Some p_age_15).
Proof.
  apply (death_boundary_ages [p_age_85; p_age_15] [7; 8] 1 p_age_15).
  - reflexivity.
  - apply (bool_decide_unpack _). vm_compute. exact I.
Defined.

(** ** The fertility pass *)

Lemma fertility_one_spec p :
  fertility_one p = set_fertility (fertility_after p) p.
Proof.
  unfold fertility_one, fertility_after.
  destruct p as [i s a al h f pa c]; simpl.
  destruct (decide (a > 65)) as [Hold|Hold];
    destruct (decide (a > 18 ∧ f = 0)) as [Hact|Hact].
  - destruct Hact as [? ->].
    assert ((a >? 18) = true) as -> by lia. simpl.
    by assert ((a >? 65) = true) as -> by lia.
  - assert ((a >? 18) && (f =? 0) = false) as ->.
    { apply andb_false_iff. destruct (decide (f = 0)); [left|right]; lia. }
    simpl. by assert ((a >? 65) = true) as -> by lia.
  - destruct Hact as [? ->].
    assert ((a >? 18) = true) as -> by lia. simpl.
    by assert ((a >? 65) = false) as -> by lia.
  - assert ((a >? 18) && (f =? 0) = false) as ->.
    { apply andb_false_iff. destruct (decide (a > 18)); [right|left]; lia. }
    simpl. by assert ((a >? 65) = false) as -> by lia.
Qed.

(** C6: the fertility update keeps the table's length and treats every row
    alike, alive or not: the row keeps all its other fields, and its
    fertility is 0 when [age > 65], else 1 when [age > 18] and it was 0,
    else what it was. *)
Theorem fertility_update_every_agent (population : list person) (i : nat) :
  length (fertility_update population) = length population
  ∧ fertility_update population !! i
    = (λ p, set_fertility
              (if decide (age p > 65) then 0
               else if decide (age p > 18 ∧ fertility p = 0) then 1
               else fertility p) p) <$> population !! i.
Proof.
  unfold fertility_update. split; [apply length_fmap|].
  rewrite list_lookup_fmap.
  destruct (population !! i) as [p|]; simpl; [|done].
  by rewrite fertility_one_spec.
Qed.

(** ** The link view of a table

    Only [id] and [partner_id] matter for partnership; the passes that leave
    both fields alone leave every property stated on [links] alone. *)

Lemma links_ids population : (links population).*1 = ids population.
Proof. unfold links, ids. by rewrite <- list_fmap_compose. Qed.

Lemma links_length population : length (links population) = length population.
Proof. apply length_fmap. Qed.

Lemma links_lookup population i p :
  population !! i = Some p → links population !! i = Some (id p, partner_id p).
Proof. intros Hi. unfold links. by rewrite list_lookup_fmap, Hi. Qed.

Lemma links_lookup_inv population i a b :
  links population !! i = Some (a, b) →
  ∃ p, population !! i = Some p ∧ id p = a ∧ partner_id p = b.
Proof.
  unfold links. rewrite list_lookup_fmap.
  destruct (population !! i) as [p|]; simpl; [|done].
  intros [= <- <-]. eauto.
Qed.

Lemma links_fmap (f : person → person) population :
  (∀ p, id (f p) = id p ∧ partner_id (f p) = partner_id p) →
  links (f <$> population) = links population.
Proof.
  intros Hf. unfold links. rewrite <- list_fmap_compose.
  apply list_fmap_ext. intros i p _. simpl. by destruct (Hf p) as [-> ->].
Qed.

Lemma links_alter (f : person → person) i population :
  (∀ p, id (f p) = id p ∧ partner_id (f p) = partner_id p) →
  links (alter f i population) = links population.
Proof.
  intros Hf. apply list_eq. intros j. unfold links.
  rewrite !list_lookup_fmap.
  destruct (decide (i = j)) as [->|Hne].
  - rewrite list_lookup_alter_eq.
    destruct (population !! j) as [p|]; simpl; [|done].
    by destruct (Hf p) as [-> ->].
  - by rewrite list_lookup_alter_ne.
Qed.

Section VitalFrame.
Context {G : Type} `{Entropy G}.

Lemma death_links population (g : G) :
  links (death population g).1 = links population.
Proof.
  apply list_eq. intros i.
  destruct (population !! i) as [p|] eqn:Hi.
  - destruct (death_lookup population g i p Hi) as [gi Hgi].
    rewrite (links_lookup _ _ _ Hgi), (links_lookup _ _ _ Hi).
    by destruct (death_one_fields p gi) as (v & -> & _).
  - apply lookup_ge_None in Hi.
    rewrite !(proj2 (lookup_ge_None _ _));
      rewrite ?links_length, ?death_length; done.
Qed.

End VitalFrame.

Lemma aging_update_links population :
  links (aging_update population) = links population.
Proof.
  apply links_fmap. intros p. unfold aging_one. by destruct (alive p =? 1).
Qed.

Lemma fertility_update_links population :
  links (fertility_update population) = links population.
Proof. apply links_fmap. intros p. by rewrite fertility_one_spec. Qed.

(** ** Single extraction *)

Lemma single_people_from_men i rows m :
  m ∈ (single_people_from i rows).1 →
  ∃ p, (i ≤ m)%nat ∧ rows !! (m - i)%nat = Some p
       ∧ alive p = 1 ∧ partner_id p = -1 ∧ sex p = "M".
Proof.
  revert i. induction rows as [|q rest IH]; intros i; simpl; [set_solver|].
  specialize (IH (S i)).
  destruct (single_people_from (S i) rest) as [men women]. simpl in IH.
  assert (m ∈ men → ∃ p, (i ≤ m)%nat ∧ (q :: rest) !! (m - i)%nat = Some p
            ∧ alive p = 1 ∧ partner_id p = -1 ∧ sex p = "M") as Hrest.
  { intros Hm. destruct (IH Hm) as (p & Hle & Hp & ?). exists p.
    split; [lia|]. split; [|done].
    replace (m - i)%nat with (S (m - S i)) by lia. done. }
  destruct ((alive q =? 1) && (partner_id q =? -1)) eqn:Hsingle; [|done].
  apply andb_true_iff in Hsingle as [Ha Hp].
  destruct (String.eqb_spec (sex q) "M") as [HM|HM]; simpl.
  - intros [->|Hm]%elem_of_cons; [|auto].
    exists q. rewrite Nat.sub_diag. split_and!; [lia|done|lia|lia|done].
  - by destruct (String.eqb (sex q) "F").
Qed.

Lemma single_people_from_women i rows w :
  w ∈ (single_people_from i rows).2 →
  ∃ p, (i ≤ w)%nat ∧ rows !! (w - i)%nat = Some p
       ∧ alive p = 1 ∧ partner_id p = -1 ∧ sex p = "F".
Proof.
  revert i. induction rows as [|q rest IH]; intros i; simpl; [set_solver|].
  specialize (IH (S i)).
  destruct (single_people_from (S i) rest) as [men women]. simpl in IH.
  assert (w ∈ women → ∃ p, (i ≤ w)%nat ∧ (q :: rest) !! (w - i)%nat = Some p
            ∧ alive p = 1 ∧ partner_id p = -1 ∧ sex p = "F") as Hrest.
  { intros Hw. destruct (IH Hw) as (p & Hle & Hp & ?). exists p.
    split; [lia|]. split; [|done].
    replace (w - i)%nat with (S (w - S i)) by lia. done. }
  destruct ((alive q =? 1) && (partner_id q =? -1)) eqn:Hsingle; [|done].
  apply andb_true_iff in Hsingle as [Ha Hp].
  destruct (String.eqb_spec (sex q) "M") as [HM|HM]; simpl; [done|].
  destruct (String.eqb_spec (sex q) "F") as [HF|HF]; simpl; [|done].
  intros [->|Hw]%elem_of_cons; [|auto].
  exists q. rewrite Nat.sub_diag. split_and!; [lia|done|lia|lia|done].
Qed.

Lemma single_people_from_NoDup i rows :
  NoDup (single_people_from i rows).1 ∧ NoDup (single_people_from i rows).2.
Proof.
  revert i. induction rows as [|q rest IH]; intros i; simpl.
  { split; constructor. }
  pose proof (λ m, single_people_from_men (S i) rest m) as Hmen.
  pose proof (λ w, single_people_from_women (S i) rest w) as Hwomen.
  destruct (IH (S i)) as [IH1 IH2].
  destruct (single_people_from (S i) rest) as [men women]. simpl in *.
  assert (i ∉ men) by (intros (? & ? & _)%Hmen; lia).
  assert (i ∉ women) by (intros (? & ? & _)%Hwomen; lia).
  destruct ((alive q =? 1) && (partner_id q =? -1)); [|done].
  destruct (String.eqb (sex q) "M"); simpl; [by split; [constructor|]|].
  destruct (String.eqb (sex q) "F"); simpl; [by split; [|constructor]|done].
Qed.

Lemma get_single_people_spec population :
  let '(men, women) := get_single_people population in
  NoDup (men ++ women)
  ∧ (∀ m, m ∈ men → ∃ p, population !! m = Some p
            ∧ alive p = 1 ∧ partner_id p = -1 ∧ sex p = "M")
  ∧ (∀ w, w ∈ women → ∃ p, population !! w = Some p
            ∧ alive p = 1 ∧ partner_id p = -1 ∧ sex p = "F").
Proof.
  unfold get_single_people.
  pose proof (λ m, single_people_from_men 0 population m) as Hmen.
  pose proof (λ w, single_people_from_women 0 population w) as Hwomen.
  destruct (single_people_from_NoDup 0 population) as [Hn1 Hn2].
  destruct (single_people_from 0 population) as [men women]. simpl in *.
  assert (∀ m, m ∈ men → ∃ p, population !! m = Some p
            ∧ alive p = 1 ∧ partner_id p = -1 ∧ sex p = "M") as Hmen'.
  { intros m (p & _ & Hp & ?)%Hmen. rewrite Nat.sub_0_r in Hp. eauto. }
  assert (∀ w, w ∈ women → ∃ p, population !! w = Some p
            ∧ alive p = 1 ∧ partner_id p = -1 ∧ sex p = "F") as Hwomen'.
  { intros w (p & _ & Hp & ?)%Hwomen. rewrite Nat.sub_0_r in Hp. eauto. }
  split; [|done].
  apply NoDup_app. split; [done|]. split; [|done].
  intros x (p & Hp & _ & _ & HM)%Hmen' (p' & Hp' & _ & _ & HF)%Hwomen'.
  congruence.
Qed.

(** ** Matching and commit *)

Lemma zip_fst_sublist {A B} (l : list A) (k : list B) :
  (zip l k).*1 `sublist_of` l.
Proof.
  revert k. induction l as [|x l IH]; intros [|y k]; simpl;
    try apply sublist_nil_l.
  by apply sublist_skip.
Qed.

Lemma zip_snd_sublist {A B} (l : list A) (k : list B) :
  (zip l k).*2 `sublist_of` k.
Proof.
  revert k. induction l as [|x l IH]; intros [|y k]; simpl;
    try apply sublist_nil_l.
  by apply sublist_skip.
Qed.

Lemma pair_people_spec {G} `{Entropy G} men women (g : G) :
  NoDup (men ++ women) →
  disjoint_pairs (pair_people men women g).1
  ∧ ∀ m w, (m, w) ∈ (pair_people men women g).1 → m ∈ men ∧ w ∈ women.
Proof.
  intros Hnd. unfold pair_people.
  pose proof (shuffle_perm men g) as Hmen.
  destruct (shuffle men g) as [men' g1]. simpl in Hmen.
  pose proof (shuffle_perm women g1) as Hwomen.
  destruct (shuffle women g1) as [women' g2]. simpl in *.
  split.
  - unfold disjoint_pairs. rewrite <- Hmen, <- Hwomen in Hnd.
    eapply sublist_NoDup; [exact Hnd|].
    apply sublist_app; [apply zip_fst_sublist | apply zip_snd_sublist].
  - intros m w Hmw. rewrite <- Hmen, <- Hwomen.
    split; [by eapply elem_of_zip_l | by eapply elem_of_zip_r].
Qed.

Arguments apply_pair : simpl never.

Lemma apply_pair_length population pair :
  length (apply_pair population pair) = length population.
Proof.
  destruct pair as [m w]. unfold apply_pair.
  destruct (population !! w) as [pw|]; [|done].
  destruct (alter _ m population !! m) as [pm|];
    by rewrite ?length_alter.
Qed.

Lemma apply_pair_other population m w i :
  i ≠ m → i ≠ w → apply_pair population (m, w) !! i = population !! i.
Proof.
  intros Hm Hw. unfold apply_pair.
  destruct (population !! w) as [pw|]; [|done].
  destruct (alter _ m population !! m) as [pm|];
    by rewrite ?list_lookup_alter_ne.
Qed.

(** [apply_pair] assigns [partner_id] and nothing else. *)
Lemma apply_pair_fields population pair i p :
  population !! i = Some p →
  ∃ v, apply_pair population pair !! i = Some (set_partner_id v p).
Proof.
  intros Hi. destruct pair as [m w]. unfold apply_pair.
  destruct (population !! w) as [pw|];
    [|exists (partner_id p); by rewrite set_partner_id_same].
  assert (∃ v, alter (set_partner_id (id pw)) m population !! i
               = Some (set_partner_id v p)) as [v Hv].
  { destruct (decide (m = i)) as [->|Hne].
    - exists (id pw). by rewrite list_lookup_alter_eq, Hi.
    - exists (partner_id p).
      by rewrite list_lookup_alter_ne, set_partner_id_same. }
  destruct (alter _ m population !! m) as [pm|]; [|eauto].
  destruct (decide (w = i)) as [->|Hne].
  - exists (id pm). by rewrite list_lookup_alter_eq, Hv.
  - exists v. by rewrite list_lookup_alter_ne.
Qed.

Lemma apply_pair_both population m w pm pw :
  m ≠ w → population !! m = Some pm → population !! w = Some pw →
  apply_pair population (m, w) !! m = Some (set_partner_id (id pw) pm)
  ∧ apply_pair population (m, w) !! w = Some (set_partner_id (id pm) pw).
Proof.
  intros Hne Hm Hw. unfold apply_pair. rewrite Hw.
  rewrite list_lookup_alter_eq, Hm. simpl.
  assert (w ≠ m) as Hne' by congruence.
  rewrite (list_lookup_alter_ne _ _ w m Hne').
  rewrite !list_lookup_alter_eq, Hm.
  by rewrite (list_lookup_alter_ne _ _ m w Hne), Hw.
Qed.

Lemma apply_pairs_length pairs population :
  length (apply_pairs pairs population) = length population.
Proof.
  unfold apply_pairs. revert population.
  induction pairs as [|c pairs IH]; intros population; simpl; [done|].
  by rewrite IH, apply_pair_length.
Qed.

Lemma apply_pairs_other pairs population i :
  i ∉ pairs.*1 → i ∉ pairs.*2 →
  apply_pairs pairs population !! i = population !! i.
Proof.
  unfold apply_pairs. revert population.
  induction pairs as [|[m w] pairs IH]; intros population H1 H2; [done|].
  simpl in *. rewrite not_elem_of_cons in H1, H2.
  rewrite IH by tauto. apply apply_pair_other; tauto.
Qed.

Lemma apply_pairs_fields pairs population i p :
  population !! i = Some p →
  ∃ v, apply_pairs pairs population !! i = Some (set_partner_id v p).
Proof.
  unfold apply_pairs. revert population p.
  induction pairs as [|c pairs IH]; intros population p Hi; simpl.
  { exists (partner_id p). by rewrite set_partner_id_same. }
  destruct (apply_pair_fields population c i p Hi) as [v Hv].
  destruct (IH _ _ Hv) as [v' Hv']. exists v'.
  by rewrite Hv', set_partner_id_twice.
Qed.

Lemma apply_pairs_links_ids pairs population :
  ids (apply_pairs pairs population) = ids population.
Proof.
  apply list_eq. intros i. unfold ids. rewrite !list_lookup_fmap.
  destruct (population !! i) as [p|] eqn:Hi.
  - by destruct (apply_pairs_fields pairs population i p Hi) as [v ->].
  - apply lookup_ge_None in Hi.
    rewrite (proj2 (lookup_ge_None _ _)); [done|].
    by rewrite apply_pairs_length.
Qed.

(** With disjoint pairs, both members of each pair end up holding the
    other's id. *)
Lemma apply_pairs_both pairs population m w pm pw :
  disjoint_pairs pairs → (m, w) ∈ pairs →
  population !! m = Some pm → population !! w = Some pw →
  apply_pairs pairs population !! m = Some (set_partner_id (id pw) pm)
  ∧ apply_pairs pairs population !! w = Some (set_partner_id (id pm) pw).
Proof.
  unfold disjoint_pairs, apply_pairs. revert population.
  induction pairs as [|[m' w'] pairs IH]; intros population Hnd Hin Hm Hw.
  { by apply elem_of_nil in Hin. }
  simpl in *. apply NoDup_cons in Hnd as [Hm' Hnd].
  apply NoDup_app in Hnd as (Hnd1 & Hdisj & Hnd2).
  apply NoDup_cons in Hnd2 as [Hw' Hnd2].
  rewrite not_elem_of_app, not_elem_of_cons in Hm'.
  destruct Hm' as (Hm'1 & Hm'w & Hm'2).
  apply elem_of_cons in Hin as [[= -> ->]|Hin].
  - destruct (apply_pair_both population m' w' pm pw) as [Hpm Hpw]; try done.
    fold (apply_pairs pairs (apply_pair population (m', w'))).
    rewrite !apply_pairs_other; try done.
    intros Hx. eapply Hdisj; [exact Hx|]. by left.
  - assert (m ∈ pairs.*1) as Hm1
      by (apply list_elem_of_fmap; by exists (m, w)).
    assert (w ∈ pairs.*2) as Hw2
      by (apply list_elem_of_fmap; by exists (m, w)).
    assert (m ≠ m') by (intros ->; exact (Hm'1 Hm1)).
    assert (w ≠ w') by (intros ->; exact (Hw' Hw2)).
    assert (m ≠ w').
    { intros ->. eapply Hdisj; [exact Hm1|]. by left. }
    assert (w ≠ m') by (intros ->; exact (Hm'2 Hw2)).
    apply IH; rewrite ?apply_pair_other; try done.
    apply NoDup_app. split_and!; [done| |done].
    intros x Hx1 Hx2. eapply Hdisj; [exact Hx1|]. by right.
Qed.

(** ** The reproduction loop *)

Arguments reproduce_couple : simpl never.

Section Reproduction.
Context {G : Type} `{Entropy G}.

(** The three ways out of one iteration: the couple is skipped, the
    conception draw fails, or a child is born. *)
Lemma reproduce_couple_cases (st : repro_state) man woman :
  reproduce_couple st (man, woman) = st
  ∨ (∃ g1, reproduce_couple st (man, woman)
           = mk_repro (r_population st) (r_next_id st)
                      (r_new_children st) g1)
  ∨ (∃ sx h g3, (sx = "M" ∨ sx = "F") ∧ 70 ≤ h ≤ 100
       ∧ reproduce_couple st (man, woman)
         = mk_repro (alter add_child woman
                       (alter add_child man (r_population st)))
                    (r_next_id st + 1)
                    (r_new_children st ++ [new_child (r_next_id st) sx h])
                    g3).
Proof.
  unfold reproduce_couple.
  destruct (r_population st !! man) as [m|]; [|by left].
  destruct (r_population st !! woman) as [w|]; [|by left].
  destruct ((alive m =? 1) && (alive w =? 1)); [|by left].
  destruct ((fertility m =? 1) && (fertility w =? 1)); [|by left].
  destruct (random (r_gen st)) as [k g1].
  destruct (k <? cut_0_5); [|right; left; by eexists].
  right; right.
  pose proof (randint_range 0 1 g1) as Hcoin.
  destruct (randint 0 1 g1) as [coin g2].
  pose proof (randint_range 70 100 g2) as Hh.
  destruct (randint 70 100 g2) as [h g3]. simpl in Hh.
  exists (if coin =? 1 then "M" else "F"), h, g3.
  split; [destruct (coin =? 1); auto|]. split; [lia|done].
Qed.

Lemma add_child_links p :
  id (add_child p) = id p ∧ partner_id (add_child p) = partner_id p.
Proof. done. Qed.

Lemma reproduce_couple_links (st : repro_state) couple :
  links (r_population (reproduce_couple st couple))
  = links (r_population st).
Proof.
  destruct couple as [man woman].
  destruct (reproduce_couple_cases st man woman)
    as [-> | [[g1 ->] | (sx & h & g3 & _ & _ & ->)]]; try done.
  simpl. by rewrite !links_alter by apply add_child_links.
Qed.

(** The children collected by one iteration extend the list at its end and
    take their ids from [next_id] on. *)
Lemma reproduce_couple_children (st : repro_state) couple :
  ∃ new, r_new_children (reproduce_couple st couple)
         = r_new_children st ++ new
    ∧ r_next_id (reproduce_couple st couple)
      = r_next_id st + Z.of_nat (length new)
    ∧ ids new = seqZ (r_next_id st) (Z.of_nat (length new))
    ∧ Forall newborn new.
Proof.
  destruct couple as [man woman].
  destruct (reproduce_couple_cases st man woman)
    as [-> | [[g1 ->] | (sx & h & g3 & _ & _ & ->)]].
  - exists []. rewrite app_nil_r. split_and!; [done|simpl; lia|done|done].
  - exists []. simpl. rewrite app_nil_r.
    split_and!; [done|lia|done|done].
  - exists [new_child (r_next_id st) sx h]. simpl.
    split_and!; [done|lia|done|].
    by repeat constructor.
Qed.

Lemma reproduce_loop_links (st : repro_state) couples :
  links (r_population (reproduce_loop st couples)) = links (r_population st).
Proof.
  unfold reproduce_loop. revert st.
  induction couples as [|c couples IH]; intros st; simpl; [done|].
  by rewrite IH, reproduce_couple_links.
Qed.

Lemma reproduce_loop_children (st : repro_state) couples :
  ∃ new, r_new_children (reproduce_loop st couples)
         = r_new_children st ++ new
    ∧ r_next_id (reproduce_loop st couples)
      = r_next_id st + Z.of_nat (length new)
    ∧ ids new = seqZ (r_next_id st) (Z.of_nat (length new))
    ∧ Forall newborn new.
Proof.
  unfold reproduce_loop. revert st.
  induction couples as [|c couples IH]; intros st; simpl.
  { exists []. rewrite app_nil_r. split_and!; [done|simpl; lia|done|done]. }
  destruct (reproduce_couple_children st c) as (new1 & Hk1 & Hn1 & Hi1 & Hb1).
  destruct (IH (reproduce_couple st c)) as (new2 & Hk2 & Hn2 & Hi2 & Hb2).
  exists (new1 ++ new2).
  rewrite Hk2, Hk1, Hn2, Hn1, length_app, Nat2Z.inj_add, <- app_assoc.
  split_and!; [done|lia| |by apply Forall_app].
  unfold ids in *. rewrite fmap_app, Hi1, Hi2, Hn1.
  by rewrite seqZ_app by lia.
Qed.

Lemma max_id_bound population m :
  max_id population = Ok m → Forall (λ x, x ≤ m) (ids population).
Proof.
  destruct population as [|p rest]; [done|]. simpl. intros [= <-].
  assert (∀ a, a ≤ foldl (λ m q, Z.max m (id q)) a rest
               ∧ Forall (λ x, x ≤ foldl (λ m q, Z.max m (id q)) a rest)
                        (ids rest)) as Hfold.
  { induction rest as [|q rest IH]; intros a; simpl; [by split|].
    destruct (IH (Z.max a (id q))) as [Hle Hall].
    split; [lia|]. constructor; [lia|done]. }
  destruct (Hfold (id p)) as [Hle Hall]. by constructor.
Qed.

Lemma max_id_nonempty population :
  population ≠ [] → ∃ m, max_id population = Ok m.
Proof. destruct population; [done|]. simpl. eauto. Qed.

(** What [reproduce] returns: the table with the same ids and partners,
    followed by the newborns, whose ids count up from one past the greatest
    id of the table. *)
Lemma reproduce_spec population couples (g : G) population' g' :
  reproduce population couples g = Ok (population', g') →
  ∃ m rows new,
    max_id population = Ok m
    ∧ rows = r_population (reproduce_loop (mk_repro population (m + 1) [] g)
                                          couples)
    ∧ population' = rows ++ new
    ∧ links rows = links population
    ∧ ids new = seqZ (m + 1) (Z.of_nat (length new))
    ∧ Forall newborn new.
Proof.
  unfold reproduce. destruct (max_id population) as [m|e] eqn:Hmax; [|done].
  simpl. intros [= <- <-].
  set (st := mk_repro population (m + 1) [] g).
  destruct (reproduce_loop_children st couples) as (new & Hk & _ & Hi & Hb).
  exists m, (r_population (reproduce_loop st couples)), new.
  split_and!; try done.
  - by rewrite Hk.
  - by rewrite reproduce_loop_links.
Qed.

Lemma reproduce_total population couples (g : G) :
  population ≠ [] → ∃ population' g',
    reproduce population couples g = Ok (population', g').
Proof.
  intros [m Hm]%max_id_nonempty. unfold reproduce. rewrite Hm. simpl.
  eauto.
Qed.

End Reproduction.

(** ** Identity of agents *)

Lemma max_id_ids population population' :
  ids population = ids population' → max_id population = max_id population'.
Proof.
  destruct population as [|p rest], population' as [|p' rest']; try done.
  unfold ids. simpl. intros [= Hp Hrest]. f_equal.
  rewrite <- (foldl_fmap Z.max (id p) rest id).
  rewrite <- (foldl_fmap Z.max (id p') rest' id).
  rewrite Hp. f_equal. exact Hrest.
Qed.

Section Identity.
Context {G : Type} `{Entropy G}.

Lemma pairing_links_ids population (g : G) :
  ids (pairing population g).1 = ids population.
Proof.
  unfold pairing. destruct (get_single_people population) as [men women].
  destruct (pair_people men women g) as [pairs g']. simpl.
  apply apply_pairs_links_ids.
Qed.

Lemma pairing_length population (g : G) :
  length (pairing population g).1 = length population.
Proof.
  unfold pairing. destruct (get_single_people population) as [men women].
  destruct (pair_people men women g) as [pairs g']. simpl.
  apply apply_pairs_length.
Qed.

Lemma reproduce_fresh_ids population couples (g : G) population' g' :
  NoDup (ids population) →
  reproduce population couples g = Ok (population', g') →
  fresh_ids_appended population population'.
Proof.
  intros Hnd (m & rows & new & Hmax & _ & -> & Hlinks & Hnew & _)%reproduce_spec.
  assert (ids rows = ids population) as Hids
    by (by rewrite <- !links_ids, Hlinks).
  pose proof (max_id_bound _ _ Hmax) as Hbound.
  assert (∀ x y, x ∈ ids population →
            y ∈ seqZ (m + 1) (Z.of_nat (length new)) → x < y) as Hlt.
  { intros x y Hx [i [-> _]%lookup_seqZ]%list_elem_of_lookup.
    rewrite Forall_forall in Hbound. specialize (Hbound x Hx). lia. }
  split.
  - unfold ids in *. rewrite fmap_app, Hids, Hnew.
    apply NoDup_app. split_and!; [done| |apply NoDup_seqZ].
    intros x Hx Hy. specialize (Hlt x x Hx Hy). lia.
  - exists m, (Z.of_nat (length new)). split_and!; [done| |done].
    unfold ids in *. by rewrite fmap_app, Hids, Hnew.
Qed.

(** The ids that enter [reproduce] inside a step are those that entered
    the step. *)
Lemma step_reproduce population (g : G) population' g' :
  step population g = Ok (population', g') →
  ∃ rows couples g1,
    ids rows = ids population
    ∧ reproduce rows couples g1 = Ok (population', g').
Proof.
  unfold step.
  pose proof (death_links population g) as Hd.
  destruct (death population g) as [T1 g1]. simpl in Hd.
  pose proof (pairing_links_ids (fertility_update (aging_update T1)) g1) as Hp.
  destruct (pairing (fertility_update (aging_update T1)) g1) as [T4 g2].
  simpl in Hp.
  destruct (get_all_couples T4) as [couples|e]; [|done]. simpl.
  intros Hrep. exists T4, couples, g2. split; [|done].
  rewrite Hp, <- !links_ids.
  by rewrite fertility_update_links, aging_update_links, Hd.
Qed.

End Identity.

Example step_couple_5_6 :
  step couple_5_6 script_birth = Ok (couple_5_6_after, []).
Proof. vm_compute. reflexivity. Qed.

(** C2: when the ids of a table are pairwise distinct, they are pairwise
    distinct in whatever [reproduce] returns from it and after a full step.
    In both cases the old ids stay in place and the new ones are
    [m + 1, m + 2, ...], consecutive from one past the greatest id [m] that
    the table had before any child was appended, hence each strictly
    greater than every old id. *)
Theorem ids_remain_distinct {G} `{Entropy G}
    (population : list person) (g : G) :
  NoDup (ids population) →
  (∀ couples population' g',
     reproduce population couples g = Ok (population', g') →
     fresh_ids_appended population population')
  ∧ (∀ population' g',
       step population g = Ok (population', g') →
       fresh_ids_appended population population').
Proof.
  intros Hnd. split.
  - intros couples population' g'. by apply reproduce_fresh_ids.
  - intros population' g' (rows & couples & g1 & Hids & Hrep)%step_reproduce.
    assert (fresh_ids_appended rows population') as Hfresh.
    { eapply reproduce_fresh_ids; [|exact Hrep]. by rewrite Hids. }
    unfold fresh_ids_appended in *.
    by rewrite <- Hids, <- (max_id_ids rows population Hids).
Qed.

Lemma ids_remain_distinct_witness :
  fresh_ids_appended couple_5_6 couple_5_6_after.
Proof.
  apply (proj2 (ids_remain_distinct couple_5_6 script_birth
                  ltac:(apply (bool_decide_unpack _); vm_compute; exact I))
               couple_5_6_after []).
  vm_compute. reflexivity.
Defined.

(** ** Partnership *)

Lemma ids_lookup population i p :
  population !! i = Some p → ids population !! i = Some (id p).
Proof. intros Hi. unfold ids. by rewrite list_lookup_fmap, Hi. Qed.

Lemma ids_nonneg_lookup population i p :
  Forall (λ x, 0 ≤ x) (ids population) → population !! i = Some p →
  0 ≤ id p.
Proof.
  intros Hall Hi. rewrite Forall_lookup in Hall.
  exact (Hall i (id p) (ids_lookup _ _ _ Hi)).
Qed.

Lemma ids_NoDup_lookup population i j p q :
  NoDup (ids population) → population !! i = Some p →
  population !! j = Some q → id p = id q → i = j.
Proof.
  intros Hnd Hi Hj Heq. eapply NoDup_lookup; [exact Hnd| |].
  - by apply ids_lookup.
  - rewrite Heq. by apply ids_lookup.
Qed.

Lemma partner_symmetric_links population population' :
  links population = links population' →
  partner_symmetric population → partner_symmetric population'.
Proof.
  intros Hl Hsym i p Hi Hp.
  apply links_lookup in Hi. rewrite <- Hl in Hi.
  apply links_lookup_inv in Hi as (p0 & Hi0 & Hid & Hpa).
  destruct (Hsym i p0 Hi0) as (j & q0 & Hj0 & Hq1 & Hq2); [congruence|].
  apply links_lookup in Hj0. rewrite Hl in Hj0.
  apply links_lookup_inv in Hj0 as (q & Hj & Hid' & Hpa').
  exists j, q. split; [done|]. split; congruence.
Qed.

Lemma table_invariant_links population population' :
  links population = links population' →
  table_invariant population → table_invariant population'.
Proof.
  intros Hl (Hnd & Hpos & Hsym).
  assert (ids population' = ids population) as Hids
    by (by rewrite <- !links_ids, Hl).
  split_and!; rewrite ?Hids; try done.
  by apply (partner_symmetric_links population).
Qed.

Lemma table_invariant_one_partner population :
  table_invariant population → one_partner population.
Proof.
  intros (Hnd & Hpos & Hsym) i j k p q r Hi Hj Hk. split.
  - intros Hq Hr. eapply ids_NoDup_lookup; eauto. congruence.
  - intros Hq Hr.
    pose proof (ids_nonneg_lookup _ _ _ Hpos Hi) as Hp0.
    destruct (Hsym j q Hj) as (i1 & p1 & Hi1 & Hid1 & Hpa1); [lia|].
    destruct (Hsym k r Hk) as (i2 & p2 & Hi2 & Hid2 & Hpa2); [lia|].
    assert (i1 = i) by (eapply ids_NoDup_lookup; eauto; congruence).
    assert (i2 = i) by (eapply ids_NoDup_lookup; eauto; congruence).
    simplify_eq. eapply ids_NoDup_lookup; eauto. congruence.
Qed.

Lemma partner_symmetric_integrity population :
  partner_symmetric population → referential_integrity population.
Proof.
  intros Hsym p [i Hi]%list_elem_of_lookup Hp.
  destruct (Hsym i p Hi Hp) as (j & q & Hj & Hid & _).
  exists q. split; [by eapply list_elem_of_lookup_2|done].
Qed.

Section Pairing.
Context {G : Type} `{Entropy G}.

(** A row leaves the pairing untouched, or it was a living single and it is
    now tied to another living single, each holding the other's id. *)
Lemma pairing_lookup population (g : G) i p :
  population !! i = Some p →
  (pairing population g).1 !! i = Some p
  ∨ (partner_id p = -1 ∧ alive p = 1
     ∧ ∃ j q, i ≠ j ∧ population !! j = Some q
         ∧ partner_id q = -1 ∧ alive q = 1
         ∧ (pairing population g).1 !! i = Some (set_partner_id (id q) p)
         ∧ (pairing population g).1 !! j = Some (set_partner_id (id p) q)).
Proof.
  intros Hi. unfold pairing.
  pose proof (get_single_people_spec population) as Hsingles.
  destruct (get_single_people population) as [men women].
  destruct Hsingles as (Hnd & Hmen & Hwomen).
  destruct (pair_people_spec men women g Hnd) as [Hdisj Hin].
  destruct (pair_people men women g) as [pairs g']. simpl in *.
  destruct (decide (i ∈ pairs.*1)) as [Him|Him].
  - right. apply list_elem_of_fmap in Him as ([m w] & -> & Hmw). simpl in *.
    destruct (Hin m w Hmw) as [Hm Hw].
    destruct (Hmen m Hm) as (pm & Hpm & ? & ? & HM).
    destruct (Hwomen w Hw) as (pw & Hpw & ? & ? & HF).
    assert (pm = p) as -> by congruence.
    destruct (apply_pairs_both pairs population m w p pw) as [Hnew1 Hnew2];
      try done.
    split_and!; try done. exists w, pw. split_and!; try done.
    intros ->. congruence.
  - destruct (decide (i ∈ pairs.*2)) as [Hiw|Hiw].
    + right. apply list_elem_of_fmap in Hiw as ([m w] & -> & Hmw).
      simpl in *.
      destruct (Hin m w Hmw) as [Hm Hw].
      destruct (Hmen m Hm) as (pm & Hpm & ? & ? & HM).
      destruct (Hwomen w Hw) as (pw & Hpw & ? & ? & HF).
      assert (pw = p) as -> by congruence.
      destruct (apply_pairs_both pairs population m w pm p)
        as [Hnew1 Hnew2]; try done.
      split_and!; try done. exists m, pm. split_and!; try done.
      intros ->. congruence.
    + left. by rewrite apply_pairs_other.
Qed.

Lemma pairing_invariant population (g : G) :
  table_invariant population → table_invariant (pairing population g).1.
Proof.
  intros (Hnd & Hpos & Hsym).
  split_and!; rewrite ?pairing_links_ids; try done.
  intros i p1 Hi1 Hp1.
  assert (is_Some (population !! i)) as [p Hi].
  { apply lookup_lt_is_Some. rewrite <- (pairing_length population g).
    by eapply lookup_lt_Some. }
  destruct (pairing_lookup population g i p Hi)
    as [Hsame | (_ & _ & j & q & _ & _ & _ & _ & Hi' & Hj')].
  - assert (p1 = p) as -> by congruence.
    destruct (Hsym i p Hi Hp1) as (j & q & Hj & Hid & Hpa).
    exists j, q. split; [|done].
    destruct (pairing_lookup population g j q Hj) as [Hq | (Hq & _)];
      [done|].
    pose proof (ids_nonneg_lookup _ _ _ Hpos Hi). lia.
  - assert (p1 = set_partner_id (id q) p) as -> by congruence.
    by exists j, (set_partner_id (id p) q).
Qed.

End Pairing.

(** ** Couple extraction *)

Lemma find_partner_Ok pid population j q :
  find_partner pid population = Ok (j, q) →
  population !! j = Some q ∧ id q = pid
  ∧ ∀ k r, population !! k = Some r → (k < j)%nat → id r ≠ pid.
Proof.
  unfold find_partner.
  destruct (list_find _ population) as [[j' q']|] eqn:Hfind; [|done].
  intros [= -> ->]. by apply list_find_Some in Hfind.
Qed.

Lemma find_partner_total pid population q :
  q ∈ population → id q = pid →
  ∃ j q', find_partner pid population = Ok (j, q').
Proof.
  intros Hq Hid. unfold find_partner.
  destruct (list_find_elem_of (λ x, id x = pid) population q Hq Hid)
    as [[j q'] ->].
  eauto.
Qed.

(** With every partner link pointing into the table, the lookup of
    [couples_from] never raises. *)
Lemma couples_from_total population i rows visited :
  (∀ p, p ∈ rows → partner_id p ≠ -1 →
        ∃ q, q ∈ population ∧ id q = partner_id p) →
  ∃ couples, couples_from population i rows visited = Ok couples.
Proof.
  revert i visited. induction rows as [|p rest IH]; intros i visited Hint.
  { by exists []. }
  assert (∀ p', p' ∈ rest → partner_id p' ≠ -1 →
            ∃ q, q ∈ population ∧ id q = partner_id p') as Hrest
    by (intros p' Hp'; apply Hint; by right).
  simpl. destruct (decide _) as [[Hp _]|_]; [|by apply IH].
  destruct (Hint p (list_elem_of_here _ _) Hp) as (q & Hq & Hid).
  destruct (find_partner_total _ _ q Hq Hid) as (j & q' & ->). simpl.
  destruct (IH (S i) ({[id q']} ∪ ({[id p]} ∪ visited)) Hrest) as [cs ->].
  simpl. eauto.
Qed.

Lemma emitted_comm a b couples : emitted a b couples = emitted b a couples.
Proof.
  unfold emitted. f_equal. apply list_filter_iff. intros c. tauto.
Qed.

Section Couples.
Variable population : list person.
Hypothesis Hinv : table_invariant population.

Lemma partner_back k r k' q :
  population !! k = Some r → population !! k' = Some q →
  partner_id r ≠ -1 → id q = partner_id r → partner_id q = id r.
Proof.
  destruct Hinv as (Hnd & Hpos & Hsym). intros Hk Hk' Hr Hid.
  destruct (Hsym k r Hk Hr) as (j & q' & Hj & Hid' & Hpa).
  assert (j = k') by (eapply ids_NoDup_lookup; eauto; congruence).
  congruence.
Qed.

Lemma seen_upto_skip i p visited :
  population !! i = Some p → seen_upto population i visited →
  ¬ (partner_id p ≠ -1 ∧ id p ∉ visited) →
  seen_upto population (S i) visited.
Proof.
  destruct Hinv as (Hnd & Hpos & Hsym).
  intros Hi Hseen Hskip k r Hk. rewrite (Hseen k r Hk). split.
  - intros [Hr [Hlt | (k' & q & Hlt & Hq)]]; split; try done.
    + left; lia.
    + right. exists k', q. split; [lia|done].
  - intros [Hr Hcases]. split; [done|].
    assert (partner_id p ≠ -1 → (k < i)%nat
            ∨ ∃ k' q, (k' < i)%nat ∧ population !! k' = Some q
                      ∧ id q = partner_id r) as Hp.
    { intros Hpp.
      assert (id p ∈ visited) as Hvis
        by (destruct (decide (id p ∈ visited)); [done|tauto]).
      apply (Hseen i p Hi) in Hvis as [_ [Hlt | (k' & q & Hlt & Hq & Hid)]];
        [lia|].
      destruct (decide (k = i)) as [->|Hne].
      - right. exists k', q. assert (r = p) by congruence. by subst.
      - destruct Hcases as [Hlt' | (k'' & q' & Hlt' & Hq' & Hid')].
        + left; lia.
        + destruct (decide (k'' = i)) as [->|Hne'].
          * assert (q' = p) as -> by congruence.
            pose proof (partner_back k r i p Hk Hi Hr Hid') as Hback.
            assert (k' = k)
              by (eapply ids_NoDup_lookup; eauto; congruence).
            left; lia.
          * right. exists k'', q'. split; [lia|done]. }
    destruct Hcases as [Hlt | (k' & q & Hlt & Hq & Hid)].
    + destruct (decide (k = i)) as [->|Hne]; [|left; lia].
      assert (r = p) as -> by congruence. by apply Hp.
    + destruct (decide (k' = i)) as [->|Hne];
        [|right; exists k', q; split; [lia|done]].
      assert (q = p) as -> by congruence.
      pose proof (partner_back k r i p Hk Hi Hr Hid) as Hback.
      apply Hp. pose proof (ids_nonneg_lookup _ _ _ Hpos Hk). lia.
Qed.

Lemma seen_upto_emit i p j q visited :
  population !! i = Some p → population !! j = Some q →
  id q = partner_id p → partner_id p ≠ -1 →
  seen_upto population i visited →
  seen_upto population (S i) ({[id q]} ∪ ({[id p]} ∪ visited)).
Proof.
  destruct Hinv as (Hnd & Hpos & Hsym).
  intros Hi Hj Hid Hp Hseen k r Hk.
  pose proof (partner_back i p j q Hi Hj Hp Hid) as Hback.
  pose proof (ids_nonneg_lookup _ _ _ Hpos Hi) as Hpi.
  rewrite !elem_of_union, !elem_of_singleton, (Hseen k r Hk). split.
  - intros [Hq | [Hpid | [Hr Hcases]]].
    + assert (k = j) as -> by (eapply ids_NoDup_lookup; eauto).
      assert (r = q) as -> by congruence.
      split; [lia|]. right. exists i, p. split; [lia|]. by split.
    + assert (k = i) as -> by (eapply ids_NoDup_lookup; eauto).
      assert (r = p) as -> by congruence.
      split; [done|]. left; lia.
    + split; [done|].
      destruct Hcases as [Hlt | (k' & q' & Hlt & Hq')].
      * left; lia.
      * right. exists k', q'. split; [lia|done].
  - intros [Hr Hcases].
    destruct Hcases as [Hlt | (k' & q' & Hlt & Hq' & Hid')].
    + destruct (decide (k = i)) as [->|Hne].
      * right; left. congruence.
      * right; right. split; [done|]. left; lia.
    + destruct (decide (k' = i)) as [->|Hne].
      * assert (q' = p) as -> by congruence.
        pose proof (partner_back k r i p Hk Hi Hr Hid') as Hback'.
        left. congruence.
      * right; right. split; [done|]. right.
        exists k', q'. split; [lia|done].
Qed.

Lemma emitted_cons a b c couples :
  emitted a b (c :: couples)
  = ((if decide (c = (a, b) ∨ c = (b, a)) then 1 else 0)
     + emitted a b couples)%nat.
Proof.
  unfold emitted. rewrite filter_cons. by destruct (decide _).
Qed.

(** From row [i] on, a pair of mutual population partners [a < b] is emitted once if
    [a] is still to come, and never otherwise. *)
Lemma couples_from_emitted i rows visited couples a b :
  drop i population = rows → seen_upto population i visited →
  couples_from population i rows visited = Ok couples →
  (a < b)%nat → mutual population a b →
  emitted a b couples = if decide (i ≤ a)%nat then 1%nat else 0%nat.
Proof.
  destruct Hinv as (Hnd & Hpos & Hsym).
  intros Hdrop Hseen Hrun Hab (pa & pb & Ha & Hb & Hpab & Hpba).
  pose proof (ids_nonneg_lookup _ _ _ Hpos Ha) as Hida.
  pose proof (ids_nonneg_lookup _ _ _ Hpos Hb) as Hidb.
  revert i visited couples Hdrop Hseen Hrun.
  induction rows as [|p rest IH]; intros i visited couples Hdrop Hseen Hrun.
  { simpl in Hrun. injection Hrun as <-.
    assert (length population ≤ i)%nat as Hlen.
    { destruct (decide (length population ≤ i)%nat) as [|Hgt]; [done|].
      apply (f_equal length) in Hdrop. rewrite length_drop in Hdrop.
      simpl in Hdrop. lia. }
    apply lookup_lt_Some in Ha.
    destruct (decide (i ≤ a)%nat); [lia|done]. }
  assert (population !! i = Some p) as Hi.
  { rewrite <- (Nat.add_0_r i), <- lookup_drop, Hdrop. done. }
  assert (drop (S i) population = rest) as Hdrop'.
  { rewrite (drop_S _ _ _ Hi) in Hdrop. congruence. }
  simpl in Hrun. destruct (decide _) as [[Hp Hfresh]|Hskip].
  - destruct (find_partner (partner_id p) population) as [[j q]|e] eqn:Hfind;
      [|done].
    apply find_partner_Ok in Hfind as (Hj & Hid & Hfirst). simpl in Hrun.
    destruct (couples_from population (S i) rest _) as [cs|e] eqn:Hrest;
      [|done].
    simpl in Hrun. injection Hrun as <-.
    rewrite emitted_cons.
    rewrite (IH (S i) _ cs Hdrop'
               (seen_upto_emit i p j q visited Hi Hj Hid Hp Hseen) Hrest).
    assert (i ≤ j)%nat as Hij.
    { destruct (decide (i ≤ j)%nat) as [|Hgt]; [done|]. exfalso.
      apply Hfresh, (Hseen i p Hi). split; [done|].
      right. exists j, q. split; [lia|done]. }
    destruct (decide (a = i)) as [->|Hne].
    + assert (p = pa) as -> by congruence.
      assert (j = b) as -> by (eapply ids_NoDup_lookup; eauto; congruence).
      repeat case_decide; try lia; tauto.
    + repeat case_decide; destruct_or?; simplify_eq; lia.
  - rewrite (IH (S i) visited couples Hdrop'
               (seen_upto_skip i p visited Hi Hseen Hskip) Hrun).
    destruct (decide (a = i)) as [->|Hne].
    + exfalso. assert (p = pa) as -> by congruence.
      assert (partner_id pa ≠ -1) as Hpa by lia.
      assert (id pa ∈ visited) as Hvis
        by (destruct (decide (id pa ∈ visited)); [done|tauto]).
      apply (Hseen i pa Hi) in Hvis as [_ [Hlt | (k' & q & Hlt & Hq & Hid)]];
        [lia|].
      assert (k' = b) by (eapply ids_NoDup_lookup; eauto; congruence).
      lia.
    + repeat case_decide; try lia; done.
Qed.

Lemma seen_upto_start : seen_upto population 0 ∅.
Proof.
  intros k r Hk. split; [set_solver|].
  intros [_ [Hlt | (k' & q & Hlt & _)]]; lia.
Qed.

(** Under the table invariant every pair of mutual population partners is emitted
    exactly once, in one order only. *)
Lemma get_all_couples_once couples a b :
  get_all_couples population = Ok couples →
  a ≠ b → mutual population a b → emitted a b couples = 1%nat.
Proof.
  intros Hrun Hne Hmut. unfold get_all_couples in Hrun.
  destruct (decide (a < b)%nat) as [Hlt|Hge].
  - rewrite (couples_from_emitted 0 population ∅ couples a b
               eq_refl seen_upto_start Hrun Hlt Hmut).
    by rewrite decide_True by lia.
  - assert (b < a)%nat as Hlt by lia.
    assert (mutual population b a) as Hmut'.
    { destruct Hmut as (pa & pb & ? & ? & ? & ?). by exists pb, pa. }
    rewrite emitted_comm.
    rewrite (couples_from_emitted 0 population ∅ couples b a
               eq_refl seen_upto_start Hrun Hlt Hmut').
    by rewrite decide_True by lia.
Qed.

End Couples.

(** ** A checker for the invariant *)

Lemma table_invariant_b_sound population :
  table_invariant_b population = true → table_invariant population.
Proof.
  unfold table_invariant_b. rewrite !andb_true_iff.
  intros [[Hnd Hpos] Hsym]. split_and!.
  - by apply bool_decide_eq_true in Hnd.
  - rewrite forallb_forall in Hpos. apply Forall_forall.
    intros x Hx%list_elem_of_In. apply Hpos in Hx. lia.
  - unfold partner_symmetric_b in Hsym. rewrite forallb_forall in Hsym.
    intros i p Hi Hp.
    apply list_elem_of_lookup_2, list_elem_of_In, Hsym in Hi.
    apply orb_true_iff in Hi as [Hnone | Hsome]; [lia|].
    apply existsb_exists in Hsome as (q & Hq & Hlink).
    apply list_elem_of_In, list_elem_of_lookup in Hq as [j Hj].
    apply andb_true_iff in Hlink as [? ?].
    exists j, q. split_and!; [done|lia|lia].
Qed.

(** ** Reproduction and the whole step keep the invariant *)

Section StepInvariant.
Context {G : Type} `{Entropy G}.

Lemma reproduce_invariant population couples (g : G) population' g' :
  table_invariant population →
  reproduce population couples g = Ok (population', g') →
  table_invariant population'
  ∧ partner_id <$> take (length population) population'
    = partner_id <$> population.
Proof.
  intros Hinv Hrep.
  destruct (reproduce_fresh_ids population couples g population' g'
              (proj1 Hinv) Hrep) as (Hnd' & m' & n & Hmax' & Hids' & Hlt).
  apply reproduce_spec in Hrep
    as (m & rows & new & Hmax & _ & -> & Hlinks & Hnew & Hborn).
  assert (table_invariant rows) as (Hnd & Hpos & Hsym)
    by (by apply (table_invariant_links population)).
  assert (length rows = length population) as Hlen
    by (by rewrite <- !links_length, Hlinks).
  split; [split_and!|].
  - done.
  - rewrite Hids'. apply Forall_app. destruct Hinv as (_ & Hpos0 & _).
    split; [done|].
    apply Forall_forall. intros y Hy.
    destruct population as [|p0 rest]; [done|].
    assert (0 ≤ id p0) by (by inversion Hpos0).
    specialize (Hlt (id p0) y (list_elem_of_here _ _) Hy). lia.
  - intros i p Hi Hp.
    apply lookup_app_Some in Hi as [Hi | [_ Hi]].
    + destruct (Hsym i p Hi Hp) as (j & q & Hj & Hq).
      exists j, q. split; [by apply lookup_app_l_Some|done].
    + rewrite Forall_lookup in Hborn.
      destruct (Hborn _ _ Hi) as (_ & _ & _ & Hnone & _). done.
  - rewrite <- Hlen, take_app_length.
    transitivity ((links rows).*2);
      [|rewrite Hlinks]; unfold links; by rewrite <- list_fmap_compose.
Qed.

(** Under the invariant a step on a non-empty table runs to its end, and
    the invariant holds again after it. *)
Lemma step_invariant population (g : G) :
  table_invariant population → population ≠ [] →
  ∃ population' g',
    step population g = Ok (population', g')
    ∧ table_invariant population'.
Proof.
  intros Hinv Hne. unfold step.
  pose proof (death_links population g) as Hd.
  pose proof (death_length population g) as Hdl.
  destruct (death population g) as [T1 g1]. simpl in Hd, Hdl.
  set (T3 := fertility_update (aging_update T1)).
  assert (links population = links T3) as Hl3.
  { unfold T3. by rewrite fertility_update_links, aging_update_links, Hd. }
  assert (table_invariant T3) as Hinv3
    by (by apply (table_invariant_links population)).
  pose proof (pairing_invariant T3 g1 Hinv3) as Hinv4.
  pose proof (pairing_length T3 g1) as Hlen4.
  destruct (pairing T3 g1) as [T4 g2]. simpl in Hinv4, Hlen4.
  destruct (couples_from_total T4 0 T4 ∅) as [couples Hcouples].
  { apply partner_symmetric_integrity, Hinv4. }
  unfold get_all_couples. rewrite Hcouples. simpl.
  assert (T4 ≠ []) as Hne4.
  { intros ->. apply (f_equal length) in Hl3.
    rewrite !links_length in Hl3. simpl in Hlen4.
    destruct population; [done|]. simpl in Hl3. lia. }
  destruct (reproduce_total T4 couples g2 Hne4) as (T5 & g3 & Hrep).
  exists T5, g3. split; [done|].
  by destruct (reproduce_invariant T4 couples g2 T5 g3 Hinv4 Hrep).
Qed.

End StepInvariant.

(** C1: the table invariant (distinct non-negative ids, every partner link
    answered by the row it points at) is kept by the pairing commit, by
    [reproduce] and by a whole step, and with it no agent has, or is,
    more than one partner.  The commit leaves a row as it was or ties two
    living singles to each other, both sides at once; [reproduce] leaves
    every [partner_id] of the table it received as it was. *)
Theorem partnership_symmetry_invariant {G} `{Entropy G}
    (population : list person) (g : G) :
  table_invariant population →
  (table_invariant (pairing population g).1
   ∧ one_partner (pairing population g).1
   ∧ ∀ i p, population !! i = Some p →
       (pairing population g).1 !! i = Some p
       ∨ (partner_id p = -1 ∧ alive p = 1
          ∧ ∃ j q, i ≠ j ∧ population !! j = Some q
              ∧ partner_id q = -1 ∧ alive q = 1
              ∧ (pairing population g).1 !! i
                = Some (set_partner_id (id q) p)
              ∧ (pairing population g).1 !! j
                = Some (set_partner_id (id p) q)))
  ∧ (∀ couples population' g',
       reproduce population couples g = Ok (population', g') →
       table_invariant population' ∧ one_partner population'
       ∧ partner_id <$> take (length population) population'
         = partner_id <$> population)
  ∧ (population ≠ [] →
     ∃ population' g',
       step population g = Ok (population', g')
       ∧ table_invariant population' ∧ one_partner population').
Proof.
  intros Hinv. split_and!.
  - by apply pairing_invariant.
  - by apply table_invariant_one_partner, pairing_invariant.
  - intros i p. apply pairing_lookup.
  - intros couples population' g' Hrep.
    destruct (reproduce_invariant _ _ _ _ _ Hinv Hrep) as [Hinv' Hsame].
    split_and!; [done|by apply table_invariant_one_partner|done].
  - intros Hne.
    destruct (step_invariant population g Hinv Hne) as (T' & g' & -> & Hinv').
    exists T', g'.
    split_and!; [done|done|by apply table_invariant_one_partner].
Qed.

Lemma partnership_symmetry_invariant_witness :
  table_invariant (pairing singles_3_4 [0; 0]).1
  ∧ (pairing singles_3_4 [0; 0]).1
    = [mk_person 3 "M" 30 1 80 1 4 0; mk_person 4 "F" 28 1 80 1 3 0].
Proof.
  split.
  - apply (partnership_symmetry_invariant singles_3_4 [0; 0]).
    apply table_invariant_b_sound. vm_compute. reflexivity.
  - vm_compute. reflexivity.
Defined.

(** ** Couple extraction: totality and exactly-once *)

(** C10, as stated, fails on [crossed_table]: every partner link points at
    a row of the table and the lookup succeeds, but the one couple of the
    table (rows 2 and 3, who hold each other's id) is not emitted; each of
    its members is emitted with the earlier row that points at it. *)
Lemma crossed_couple_not_emitted :
  referential_integrity crossed_table
  ∧ mutual crossed_table 2 3
  ∧ get_all_couples crossed_table = Ok [(0, 2); (1, 3)]%nat
  ∧ emitted 2 3 [(0, 2); (1, 3)]%nat = 0%nat.
Proof.
  split_and!.
  - intros p Hp _. apply list_elem_of_In in Hp. simpl in Hp.
    destruct Hp as [<- | [<- | [<- | [<- | []]]]]; simpl.
    + exists (mk_person 1 "F" 30 1 80 1 2 0). split; [|done].
      apply list_elem_of_In. simpl. tauto.
    + exists (mk_person 2 "M" 30 1 80 1 1 0). split; [|done].
      apply list_elem_of_In. simpl. tauto.
    + exists (mk_person 2 "M" 30 1 80 1 1 0). split; [|done].
      apply list_elem_of_In. simpl. tauto.
    + exists (mk_person 1 "F" 30 1 80 1 2 0). split; [|done].
      apply list_elem_of_In. simpl. tauto.
  - by eexists _, _.
  - vm_compute. reflexivity.
  - vm_compute. reflexivity.
Qed.

(** C10 (amended): when every partner link points at a row of the table,
    the lookup of [get_all_couples] never raises.  When moreover the table
    invariant holds (distinct non-negative ids, symmetric partnership),
    every couple, two rows holding each other's id, is emitted exactly
    once.  [load_population] accepts a snapshot with a partner id that no
    row has, and on that table [get_all_couples] raises [StopIteration]
    instead of skipping the row. *)
Theorem get_all_couples_total_once (population : list person) :
  (referential_integrity population →
   ∃ couples, get_all_couples population = Ok couples)
  ∧ (table_invariant population →
     ∃ couples, get_all_couples population = Ok couples
       ∧ ∀ a b, a ≠ b → mutual population a b →
           emitted a b couples = 1%nat)
  ∧ (load_population (Some dangling_snapshot) = Ok dangling_table
     ∧ ¬ referential_integrity dangling_table
     ∧ get_all_couples dangling_table = Raise StopIteration).
Proof.
  split_and!.
  - intros Hint. by apply couples_from_total.
  - intros Hinv.
    destruct (couples_from_total population 0 population ∅) as [cs Hcs].
    { apply partner_symmetric_integrity, Hinv. }
    exists cs. split; [done|].
    intros a b. by apply get_all_couples_once.
  - vm_compute. reflexivity.
  - intros Hint.
    destruct (Hint (mk_person 0 "M" 30 1 80 1 9 0)) as (q & Hq & Hid).
    + apply list_elem_of_here.
    + done.
    + apply list_elem_of_singleton in Hq. by subst.
  - vm_compute. reflexivity.
Qed.

Lemma get_all_couples_total_once_witness :
  ∃ couples, get_all_couples couple_5_6 = Ok couples
    ∧ ∀ a b, a ≠ b → mutual couple_5_6 a b → emitted a b couples = 1%nat.
Proof.
  apply (get_all_couples_total_once couple_5_6).
  apply table_invariant_b_sound. vm_compute. reflexivity.
Defined.

(** ** Reproduction, couple by couple *)

Section PerCouple.
Context {G : Type} `{Entropy G}.

(** [reproduce_couple] assigns [children_count] and nothing else, and not
    even that on a row that is not alive. *)
Lemma reproduce_couple_fields (st : repro_state) couple i p :
  r_population st !! i = Some p →
  ∃ v, r_population (reproduce_couple st couple) !! i
       = Some (set_children_count v p)
    ∧ (alive p ≠ 1 → v = children_count p).
Proof.
  intros Hi. destruct couple as [man woman]. unfold reproduce_couple.
  assert (∃ v, r_population st !! i = Some (set_children_count v p)
               ∧ (alive p ≠ 1 → v = children_count p)) as Hsame.
  { exists (children_count p). by rewrite set_children_count_same. }
  destruct (r_population st !! man) as [m|] eqn:Hm; [|done].
  destruct (r_population st !! woman) as [w|] eqn:Hw; [|done].
  destruct ((alive m =? 1) && (alive w =? 1)) eqn:Halive; [|done].
  destruct ((fertility m =? 1) && (fertility w =? 1)); [|done].
  destruct (random (r_gen st)) as [k g1].
  destruct (k <? cut_0_5); [|done].
  destruct (randint 0 1 g1) as [coin g2].
  destruct (randint 70 100 g2) as [h g3]. simpl.
  apply andb_true_iff in Halive as [Hma Hwa].
  destruct (decide (woman = i)) as [->|Hnw]; destruct (decide (man = i))
    as [->|Hnm];
    rewrite ?list_lookup_alter_eq, ?list_lookup_alter_ne by done;
    rewrite ?list_lookup_alter_eq, ?Hi; simpl.
  - exists (children_count p + 1 + 1). split; [done|].
    assert (m = p) by congruence. subst. lia.
  - exists (children_count p + 1). split; [done|].
    assert (w = p) by congruence. subst. lia.
  - exists (children_count p + 1). split; [done|].
    assert (m = p) by congruence. subst. lia.
  - exists (children_count p). by rewrite set_children_count_same.
Qed.

Lemma reproduce_loop_fields (st : repro_state) couples i p :
  r_population st !! i = Some p →
  ∃ v, r_population (reproduce_loop st couples) !! i
       = Some (set_children_count v p)
    ∧ (alive p ≠ 1 → v = children_count p).
Proof.
  unfold reproduce_loop. revert st p.
  induction couples as [|c couples IH]; intros st p Hi; simpl.
  { exists (children_count p). by rewrite set_children_count_same. }
  destruct (reproduce_couple_fields st c i p Hi) as (v & Hv & Hdead).
  destruct (IH _ _ Hv) as (v' & Hv' & Hdead').
  exists v'. rewrite Hv', set_children_count_twice. split; [done|].
  intros Ha. rewrite Hdead' by done. simpl. auto.
Qed.

Lemma reproduce_loop_length (st : repro_state) couples :
  length (r_population (reproduce_loop st couples))
  = length (r_population st).
Proof.
  rewrite <- !links_length. by rewrite reproduce_loop_links.
Qed.

(** A row of the table that entered [reproduce] is found at its place in
    the result, with at most its [children_count] changed. *)
Lemma reproduce_fields population couples (g : G) population' g' i p :
  reproduce population couples g = Ok (population', g') →
  population !! i = Some p →
  ∃ v, population' !! i = Some (set_children_count v p)
    ∧ (alive p ≠ 1 → v = children_count p).
Proof.
  unfold reproduce. destruct (max_id population) as [m|]; [|done].
  simpl. intros [= <- <-] Hi.
  destruct (reproduce_loop_fields (mk_repro population (m + 1) [] g)
              couples i p Hi) as (v & Hv & Hdead).
  exists v. split; [by apply lookup_app_l_Some|done].
Qed.

(** The state of the loop after any number of couples: the table has its
    old length and ids, the children are apart from it, their ids count up
    from one past the greatest id of the table, and [next_id] is one past
    the last of them. *)
Lemma reproduce_loop_state population top (g : G) couples :
  max_id population = Ok top →
  length (r_population (reproduce_loop (mk_repro population (top + 1) [] g)
                                       couples))
  = length population
  ∧ ids (r_population (reproduce_loop (mk_repro population (top + 1) [] g)
                                      couples))
    = ids population
  ∧ ids (r_new_children (reproduce_loop (mk_repro population (top + 1) [] g)
                                        couples))
    = seqZ (top + 1)
        (Z.of_nat (length (r_new_children
           (reproduce_loop (mk_repro population (top + 1) [] g) couples))))
  ∧ r_next_id (reproduce_loop (mk_repro population (top + 1) [] g) couples)
    = top + 1
      + Z.of_nat (length (r_new_children
          (reproduce_loop (mk_repro population (top + 1) [] g) couples)))
  ∧ Forall newborn
      (r_new_children (reproduce_loop (mk_repro population (top + 1) [] g)
                                      couples))
  ∧ ∀ x, x ∈ ids population → x ≤ top.
Proof.
  intros Hmax. set (start := mk_repro population (top + 1) [] g).
  destruct (reproduce_loop_children start couples)
    as (new & Hk & Hn & Hi & Hb).
  simpl in Hk. subst new. simpl in Hn, Hi.
  split_and!; try done.
  - by rewrite reproduce_loop_length.
  - by rewrite <- !links_ids, reproduce_loop_links.
  - intros x Hx. pose proof (max_id_bound _ _ Hmax) as Hbound.
    rewrite Forall_forall in Hbound. by apply Hbound.
Qed.

(** The children collected after [k] couples are still there, in front,
    when the loop ends. *)
Lemma reproduce_loop_prefix (st : repro_state) couples k :
  ∃ later,
    r_new_children (reproduce_loop st couples)
    = r_new_children (reproduce_loop st (take k couples)) ++ later.
Proof.
  destruct (reproduce_loop_children (reproduce_loop st (take k couples))
              (drop k couples)) as (later & Hlater & _).
  exists later. rewrite <- Hlater. unfold reproduce_loop.
  by rewrite <- foldl_app, take_drop.
Qed.

Lemma reproduce_loop_next (st : repro_state) couples k c :
  couples !! k = Some c →
  reproduce_loop st (take (S k) couples)
  = reproduce_couple (reproduce_loop st (take k couples)) c.
Proof.
  intros Hk. unfold reproduce_loop.
  by rewrite (take_S_r _ _ _ Hk), foldl_app.
Qed.

End PerCouple.

(** C5: one couple of two different rows, met in any state of the loop.  It
    is skipped, with the whole loop state (table, [next_id], collected
    children, generator) left as it was, when either member is not alive or
    not fertile.  Otherwise one conception draw is made, against a cutoff
    that half of the [2^53] outcomes fall below: when it fails only the
    generator moves; when it succeeds exactly one child is collected, a
    newborn whose id is [next_id], [next_id] grows by one and each parent's
    [children_count] grows by one, no other row changing.

    [reproduce] is that iteration run over the couples it is passed, in
    their order, from the table it is given, [next_id] one past its greatest
    id, no child collected: the state after [k + 1] couples is the iteration
    of couple [k] on the state after [k] couples.  In every such state the
    table has its old length and ids, no child being in it, and [next_id]
    exceeds every id of the table and of the children collected so far.
    What is collected for a couple stays collected, and what [reproduce]
    returns is the table of the last state followed by all collected
    children, with the generator of the last state.  The ids of the
    children count up from one past the greatest id of the table.  On a
    table that is not empty [reproduce] does return. *)
Theorem reproduce_per_couple {G} `{Entropy G}
    (st : repro_state) (man woman : nat) (m w : person)
    (population : list person) (couples : list (nat * nat)) (g : G) :
  r_population st !! man = Some m → r_population st !! woman = Some w →
  man ≠ woman →
  ((alive m ≠ 1 ∨ alive w ≠ 1 ∨ fertility m ≠ 1 ∨ fertility w ≠ 1) →
   reproduce_couple st (man, woman) = st)
  ∧ (alive m = 1 → alive w = 1 → fertility m = 1 → fertility w = 1 →
     2 * cut_0_5 = 2 ^ 53
     ∧ (cut_0_5 ≤ (random (r_gen st)).1 →
        reproduce_couple st (man, woman)
        = mk_repro (r_population st) (r_next_id st) (r_new_children st)
                   (random (r_gen st)).2)
     ∧ ((random (r_gen st)).1 < cut_0_5 →
        ∃ child,
          r_new_children (reproduce_couple st (man, woman))
          = r_new_children st ++ [child]
          ∧ newborn child ∧ id child = r_next_id st
          ∧ r_next_id (reproduce_couple st (man, woman)) = r_next_id st + 1
          ∧ r_population (reproduce_couple st (man, woman)) !! man
            = Some (set_children_count (children_count m + 1) m)
          ∧ r_population (reproduce_couple st (man, woman)) !! woman
            = Some (set_children_count (children_count w + 1) w)
          ∧ ∀ k, k ≠ man → k ≠ woman →
              r_population (reproduce_couple st (man, woman)) !! k
              = r_population st !! k))
  ∧ (∀ population' g',
       reproduce population couples g = Ok (population', g') →
       ∃ top,
         max_id population = Ok top
         ∧ let state_at := λ k,
             foldl reproduce_couple (mk_repro population (top + 1) [] g)
                   (take k couples) in
           let final :=
             foldl reproduce_couple (mk_repro population (top + 1) [] g)
                   couples in
           population' = r_population final ++ r_new_children final
           ∧ g' = r_gen final
           ∧ state_at 0%nat = mk_repro population (top + 1) [] g
           ∧ state_at (length couples) = final
           ∧ (∀ k couple, couples !! k = Some couple →
                state_at (S k) = reproduce_couple (state_at k) couple
                ∧ length (r_population (state_at k)) = length population
                ∧ ids (r_population (state_at k)) = ids population
                ∧ (∀ x, x ∈ ids (r_population (state_at k))
                        ∨ x ∈ ids (r_new_children (state_at k)) →
                        x < r_next_id (state_at k))
                ∧ ∃ later, r_new_children final
                           = r_new_children (state_at (S k)) ++ later)
           ∧ length (r_population final) = length population
           ∧ ids (r_population final) = ids population
           ∧ ids (r_new_children final)
             = seqZ (top + 1) (Z.of_nat (length (r_new_children final)))
           ∧ Forall newborn (r_new_children final)
           ∧ ∀ x y, x ∈ ids population → y ∈ ids (r_new_children final) →
               x < y)
  ∧ (population ≠ [] →
     ∃ population' g', reproduce population couples g = Ok (population', g')).
Proof.
  intros Hm Hw Hne. split_and!.
  - intros Hskip. unfold reproduce_couple. rewrite Hm, Hw.
    destruct (alive m =? 1) eqn:?, (alive w =? 1) eqn:?; simpl; try done.
    destruct (fertility m =? 1) eqn:?, (fertility w =? 1) eqn:?; simpl;
      try done.
    lia.
  - intros Hma Hwa Hmf Hwf. unfold reproduce_couple. rewrite Hm, Hw.
    rewrite Hma, Hwa, Hmf, Hwf. simpl.
    destruct (random (r_gen st)) as [k g1]. simpl.
    split_and!; [done| |].
    + intros Hk. by assert ((k <? cut_0_5) = false) as -> by lia.
    + intros Hk. assert ((k <? cut_0_5) = true) as -> by lia.
      destruct (randint 0 1 g1) as [coin g2].
      destruct (randint 70 100 g2) as [h g3]. simpl.
      exists (new_child (r_next_id st) (if coin =? 1 then "M" else "F") h).
      split_and!; try done.
      * rewrite list_lookup_alter_ne by done.
        by rewrite list_lookup_alter_eq, Hm.
      * rewrite list_lookup_alter_eq, list_lookup_alter_ne by done.
        by rewrite Hw.
      * intros k' ? ?. by rewrite !list_lookup_alter_ne.
  - intros population' g'. unfold reproduce.
    destruct (max_id population) as [top|] eqn:Hmax; [|done].
    simpl. intros [= <- <-]. exists top. split; [done|]. cbv zeta.
    repeat match goal with
           | |- context [foldl reproduce_couple ?s ?l] =>
               change (foldl reproduce_couple s l) with (reproduce_loop s l)
           end.
    set (start := mk_repro population (top + 1) [] g).
    destruct (reproduce_loop_state population top g couples Hmax)
      as (Hlen & Hids & Hnew & _ & Hborn & Hbound).
    fold start in Hlen, Hids, Hnew, Hborn.
    split_and!; try done.
    + by rewrite firstn_all.
    + intros k couple Hk.
      repeat match goal with
             | |- context [foldl reproduce_couple ?s ?l] =>
                 change (foldl reproduce_couple s l) with (reproduce_loop s l)
             end.
      destruct (reproduce_loop_state population top g (take k couples) Hmax)
        as (Hlen_k & Hids_k & Hnew_k & Hnext_k & _ & _).
      fold start in Hlen_k, Hids_k, Hnew_k, Hnext_k.
      split_and!; try done.
      * by apply reproduce_loop_next.
      * rewrite Hnext_k, Hids_k, Hnew_k. intros x [Hx | Hx].
        -- specialize (Hbound x Hx). lia.
        -- apply list_elem_of_lookup in Hx as [i [-> ?]%lookup_seqZ]. lia.
      * apply reproduce_loop_prefix.
    + intros x y Hx. rewrite Hnew.
      intros [i [-> _]%lookup_seqZ]%list_elem_of_lookup.
      specialize (Hbound x Hx). lia.
  - intros [top Hmax]%max_id_nonempty. unfold reproduce. rewrite Hmax.
    simpl. eauto.
Qed.

Lemma reproduce_per_couple_witness :
  reproduce couple_5_6 [(0, 1)%nat] script_conception
  = Ok (couple_5_6_born, [])
  ∧ ∃ child,
      r_new_children
        (reproduce_couple (mk_repro couple_5_6 7 [] script_conception)
                          (0, 1)%nat)
      = [] ++ [child]
      ∧ newborn child ∧ id child = 7
      ∧ child ∈ couple_5_6_born.
Proof.
  destruct (reproduce_per_couple (mk_repro couple_5_6 7 [] script_conception)
              0 1 (mk_person 5 "M" 30 1 80 1 6 0)
              (mk_person 6 "F" 28 1 80 1 5 0) couple_5_6 [(0, 1)%nat]
              script_conception eq_refl eq_refl ltac:(lia))
    as (_ & Hbirth & Hloop & Htotal).
  destruct (Htotal ltac:(done)) as (population' & g' & Hrep).
  destruct (Hloop population' g' Hrep)
    as (top & Htop & Hresult & Hgen & Hstart & _ & Hstep & _).
  injection Htop as <-.
  destruct (Hbirth eq_refl eq_refl eq_refl eq_refl) as (_ & _ & Hborn).
  destruct (Hborn ltac:(vm_compute; reflexivity))
    as (child & Hkid & Hnew & Hid & _).
  split.
  - rewrite Hrep, Hresult, Hgen. vm_compute. reflexivity.
  - exists child. split_and!; try done.
    vm_compute in Hkid. injection Hkid as <-.
    apply list_elem_of_In. simpl. tauto.
Defined.

(** ** Dead agents *)

(** C7, as stated, fails for the fertility update: the pass has no test on
    [alive], and a dead agent aged 20 with fertility 0 leaves it fertile. *)
Lemma fertility_update_changes_dead :
  alive p_dead_20 = 0
  ∧ fertility_update [p_dead_20] = [set_fertility 1 p_dead_20]
  ∧ fertility (set_fertility 1 p_dead_20) ≠ fertility p_dead_20.
Proof. done. Qed.

Lemma census_split population i p :
  population !! i = Some p → alive p ≠ 1 →
  census population
  = (census (take i population) + census (drop (S i) population))%nat.
Proof.
  intros Hi Hdead. unfold census.
  rewrite <- (take_drop_middle population i p Hi) at 1.
  rewrite filter_app, filter_cons_False by done.
  by rewrite length_app.
Qed.

Section Dead.
Context {G : Type} `{Entropy G}.

Lemma death_one_dead p (g : G) : alive p = 0 → (death_one p g).1 = p.
Proof.
  intros Hdead. destruct (death_one_fields p g) as (v & -> & [-> | ->]).
  - by rewrite <- Hdead, set_alive_same.
  - apply set_alive_same.
Qed.

Lemma get_single_people_alive population i :
  i ∈ (get_single_people population).1 ∨ i ∈ (get_single_people population).2 →
  ∃ p, population !! i = Some p ∧ alive p = 1.
Proof.
  pose proof (get_single_people_spec population) as Hspec.
  destruct (get_single_people population) as [men women].
  destruct Hspec as (_ & Hmen & Hwomen). simpl.
  intros [(p & ? & ? & _)%Hmen | (p & ? & ? & _)%Hwomen]; eauto.
Qed.

End Dead.

(** C7 (amended): a dead agent stays in the table.  The aging pass, the
    pairing (it is not among the singles) and [reproduce] leave its row as
    it was, and the census is the count of the rows before it plus the
    count of the rows after it.  The fertility update does apply to it, by
    the same rule as to the living, so after a whole step its row is the
    row it had with only that rule applied. *)
Theorem dead_agent_frame {G} `{Entropy G}
    (population : list person) (g : G) (i : nat) (p : person) :
  population !! i = Some p → alive p = 0 →
  aging_update population !! i = Some p
  ∧ fertility_update population !! i = Some (fertility_one p)
  ∧ ((i ∉ (get_single_people population).1)
     ∧ (i ∉ (get_single_people population).2))
  ∧ (pairing population g).1 !! i = Some p
  ∧ (∀ couples population' g',
       reproduce population couples g = Ok (population', g') →
       population' !! i = Some p)
  ∧ census population
    = (census (take i population) + census (drop (S i) population))%nat
  ∧ (∀ population' g',
       step population g = Ok (population', g') →
       population' !! i = Some (fertility_one p)
       ∧ alive (fertility_one p) = 0).
Proof.
  intros Hi Hdead.
  assert (∀ T (g0 : G), T !! i = Some p → (pairing T g0).1 !! i = Some p)
    as Hpairing.
  { intros T g0 HT.
    destruct (pairing_lookup T g0 i p HT) as [Hsame | (_ & Hlive & _)];
      [done|lia]. }
  assert (∀ T couples (g0 : G) T' g', T !! i = Some p →
            reproduce T couples g0 = Ok (T', g') → T' !! i = Some p)
    as Hreproduce.
  { intros T couples g0 T' g' HT Hrep.
    destruct (reproduce_fields T couples g0 T' g' i p Hrep HT)
      as (v & -> & Hv).
    rewrite Hv by lia. by rewrite set_children_count_same. }
  split_and!.
  - unfold aging_update. rewrite list_lookup_fmap, Hi. simpl.
    unfold aging_one. by assert ((alive p =? 1) = false) as -> by lia.
  - unfold fertility_update. by rewrite list_lookup_fmap, Hi.
  - intros Hin.
    destruct (get_single_people_alive population i (or_introl Hin))
      as (p' & Hp' & Hlive).
    assert (p' = p) by congruence. subst. lia.
  - intros Hin.
    destruct (get_single_people_alive population i (or_intror Hin))
      as (p' & Hp' & Hlive).
    assert (p' = p) by congruence. subst. lia.
  - by apply Hpairing.
  - intros couples population' g'. by apply Hreproduce.
  - apply (census_split population i p Hi). lia.
  - intros population' g' Hstep.
    assert (alive (fertility_one p) = 0) as Hdead'
      by (by rewrite fertility_one_spec).
    split; [|done].
    unfold step in Hstep.
    destruct (death_lookup population g i p Hi) as [gi Hd].
    rewrite death_one_dead in Hd by done.
    destruct (death population g) as [T1 g1]. simpl in Hd.
    assert (fertility_update (aging_update T1) !! i
            = Some (fertility_one p)) as H3.
    { unfold fertility_update, aging_update.
      rewrite !list_lookup_fmap, Hd. simpl. unfold aging_one.
      by assert ((alive p =? 1) = false) as -> by lia. }
    assert (∀ T (g0 : G), T !! i = Some (fertility_one p) →
              (pairing T g0).1 !! i = Some (fertility_one p)) as Hpairing'.
    { intros T g0 HT.
      destruct (pairing_lookup T g0 i _ HT) as [Hsame | (_ & Hlive & _)];
        [done|lia]. }
    apply Hpairing' with (g0 := g1) in H3.
    destruct (pairing (fertility_update (aging_update T1)) g1) as [T4 g2].
    simpl in H3.
    destruct (get_all_couples T4) as [couples|]; [|done]. simpl in Hstep.
    destruct (reproduce_fields T4 couples g2 population' g' i _ Hstep H3)
      as (v & -> & Hv).
    rewrite Hv by lia. by rewrite set_children_count_same.
Qed.

Lemma dead_agent_frame_witness :
  aging_update [p_age_15; p_dead_20] !! 1%nat = Some p_dead_20
  ∧ fertility_update [p_age_15; p_dead_20] !! 1%nat
    = Some (fertility_one p_dead_20).
Proof.
  destruct (dead_agent_frame [p_age_15; p_dead_20] ([] : list Z) 1
              p_dead_20 eq_refl eq_refl) as (Hage & Hfert & _).
  by split.
Defined.

(** ** Order of mortality and aging *)

(** C8: in a step the mortality pass sees every row as it entered the step,
    so with its age before aging, and the aging pass comes next: the table
    after the two passes holds, for each row, [aging_one] of [death_one] of
    the row that entered.  At the end of the step the row is alive exactly
    when that mortality check left it alive, and its age is 5 more than on
    entry if so and the age on entry if not. *)
Theorem mortality_before_aging {G} `{Entropy G}
    (population population' : list person) (g g' : G)
    (i : nat) (p : person) :
  step population g = Ok (population', g') →
  population !! i = Some p →
  ∃ gi p',
    aging_update (death population g).1 !! i
    = Some (aging_one (death_one p gi).1)
    ∧ population' !! i = Some p'
    ∧ alive p' = alive (death_one p gi).1
    ∧ age p' = if decide (alive p' = 1) then age p + 5 else age p.
Proof.
  intros Hstep Hi. unfold step in Hstep.
  destruct (death_lookup population g i p Hi) as [gi Hd].
  destruct (death_one_fields p gi) as (v & Hv & _).
  exists gi.
  destruct (death population g) as [T1 g1]. simpl in Hd |- *.
  set (d := (death_one p gi).1) in *.
  assert (aging_update T1 !! i = Some (aging_one d)) as H2
    by (unfold aging_update; by rewrite list_lookup_fmap, Hd).
  assert (fertility_update (aging_update T1) !! i
          = Some (fertility_one (aging_one d))) as H3
    by (unfold fertility_update; by rewrite list_lookup_fmap, H2).
  assert (∃ v4, (pairing (fertility_update (aging_update T1)) g1).1 !! i
                = Some (set_partner_id v4 (fertility_one (aging_one d))))
    as [v4 H4].
  { destruct (pairing_lookup _ g1 i _ H3)
      as [Hsame | (_ & _ & j & q & _ & _ & _ & _ & Hnew & _)].
    - exists (partner_id (fertility_one (aging_one d))).
      by rewrite set_partner_id_same.
    - eauto. }
  destruct (pairing (fertility_update (aging_update T1)) g1) as [T4 g2].
  simpl in H4.
  destruct (get_all_couples T4) as [couples|]; [|done]. simpl in Hstep.
  destruct (reproduce_fields T4 couples g2 population' g' i _ Hstep H4)
    as (v5 & H5 & _).
  eexists. split_and!; [done|exact H5| |].
  - simpl. rewrite fertility_one_spec. simpl.
    unfold aging_one. by destruct (alive d =? 1).
  - simpl. rewrite fertility_one_spec. simpl.
    unfold aging_one. rewrite Hv. simpl.
    destruct (v =? 1) eqn:Hv1; simpl; case_decide; lia.
Qed.

Lemma mortality_before_aging_witness :
  ∃ gi p',
    aging_update (death [p_age_84] [2 ^ 51; 0; 0]).1 !! 0%nat
    = Some (aging_one (death_one p_age_84 gi).1)
    ∧ [mk_person 0 "M" 89 1 80 0 (-1) 0] !! 0%nat = Some p'
    ∧ alive p' = alive (death_one p_age_84 gi).1
    ∧ age p' = if decide (alive p' = 1) then age p_age_84 + 5
               else age p_age_84.
Proof.
  apply (mortality_before_aging [p_age_84] _ [2 ^ 51; 0; 0] [] 0).
  - vm_compute. reflexivity.
  - reflexivity.
Defined.

(** ** Malformed records *)

Arguments py_int : simpl never.

Lemma py_int_raises field e : py_int field = Raise e → e = ValueError.
Proof.
  unfold py_int.
  destruct (int_literal (int_rstrip (int_lstrip field))); by intros [=].
Qed.

Lemma parse_person_raises item e :
  parse_person item = Raise e → e = IndexError ∨ e = ValueError.
Proof.
  unfold parse_person, item_at, mbind, result_bind.
  repeat match goal with
         | |- context [match ?l !! ?k with _ => _ end] =>
             destruct (l !! k); [|intros [= <-]; by left]
         | |- context [py_int ?f] =>
             let Hf := fresh in
             destruct (py_int f) eqn:Hf;
             [|apply py_int_raises in Hf; intros [= <-]; by right]
         end.
  done.
Qed.

Lemma parse_person_malformed item :
  malformed item = true → ∃ e, parse_person item = Raise e.
Proof.
  unfold malformed.
  destruct item as [|f0 [|f1 [|f2 [|f3 [|f4 [|f5 [|f6 [|f7 rest]]]]]]]];
    unfold parse_person, item_at, mbind, result_bind; simpl;
    repeat match goal with
           | |- context [py_int ?f] => destruct (py_int f); simpl
           end;
    eauto; done.
Qed.

Lemma parse_person_extra item extra :
  length item = 8%nat → parse_person (item ++ extra) = parse_person item.
Proof.
  destruct item as [|f0 [|f1 [|f2 [|f3 [|f4 [|f5 [|f6 [|f7 [|f8 rest]]]]]]]]];
    done.
Qed.

Lemma load_lines_malformed lines line :
  line ∈ lines → strip line ≠ "" →
  malformed (split comma (strip line)) = true →
  ∃ e, load_lines lines = Raise e ∧ (e = IndexError ∨ e = ValueError).
Proof.
  intros Hin Hblank Hbad.
  induction lines as [|l rest IH]; [by apply elem_of_nil in Hin|].
  simpl. destruct (String.eqb_spec (strip l) "") as [Hl|Hl].
  - apply elem_of_cons in Hin as [->|Hin]; [done|auto].
  - destruct (parse_person (split comma (strip l))) as [p|e] eqn:Hparse.
    + apply elem_of_cons in Hin as [->|Hin].
      * destruct (parse_person_malformed _ Hbad) as [e He]. congruence.
      * destruct (IH Hin) as (e & -> & He). simpl. eauto.
    + simpl. exists e. split; [done|]. by eapply parse_person_raises.
Qed.

(** C4, as stated, fails twice.  A record of seven fields makes
    [load_population] raise, but [main] takes the exception with its bare
    [except:] and goes on with twenty freshly generated agents, saved over
    the snapshot.  A record of nine fields is loaded, its last field
    ignored. *)
Lemma malformed_snapshot_replaced :
  load_population (Some short_snapshot) = Raise IndexError
  ∧ (let population := (generate_initial_population ([] : list Z)).1 in
     load_or_initialize (Some short_snapshot) ([] : list Z)
     = (population, Some (save_population population), [])
     ∧ length population = 20%nat)
  ∧ load_population (Some long_snapshot)
    = Ok [mk_person 1 "M" 2 1 1 1 (-1) 0].
Proof.
  split_and!.
  - vm_compute. reflexivity.
  - split; vm_compute; reflexivity.
  - vm_compute. reflexivity.
Qed.

(** ** The save/load round trip *)

#[local] Arguments String.append !_ _ / : simpl nomatch.

Lemma append_assoc (a b c : string) : (a +:+ b) +:+ c = a +:+ (b +:+ c).
Proof. induction a as [|x a IH]; simpl; [done|]. by rewrite IH. Qed.

Lemma string_forall_app P a b :
  string_forall P (a +:+ b) = string_forall P a && string_forall P b.
Proof.
  induction a as [|x a IH]; simpl; [done|].
  by rewrite IH, andb_assoc.
Qed.

Lemma string_forall_impl (P Q : ascii → bool) s :
  (∀ c, P c = true → Q c = true) →
  string_forall P s = true → string_forall Q s = true.
Proof.
  intros HPQ. induction s as [|c s IH]; simpl; [done|].
  intros [Hc Hs]%andb_true_iff. by rewrite (HPQ c Hc), (IH Hs).
Qed.

Lemma solid_not_newline c : solid c = true → Ascii.eqb c newline = false.
Proof.
  intros Hc. destruct (Ascii.eqb_spec c newline) as [->|]; [|done].
  by vm_compute in Hc.
Qed.

Lemma solid_not_space c : solid c = true → is_space c = false.
Proof. unfold solid. by destruct (is_space c). Qed.

Lemma plain_solid c : plain c = true → solid c = true.
Proof. unfold plain. by intros [Hc _]%andb_true_iff. Qed.

Lemma plain_not_comma c : plain c = true → Ascii.eqb c comma = false.
Proof.
  unfold plain. intros [_ Hc]%andb_true_iff.
  by destruct (Ascii.eqb c comma).
Qed.

Lemma readlines_line line rest :
  string_forall solid line = true →
  readlines (line +:+ String newline rest)
  = (line +:+ String newline "") :: readlines rest.
Proof.
  induction line as [|c line IH]; simpl; [done|].
  intros [Hc Hline]%andb_true_iff.
  by rewrite (solid_not_newline c Hc), (IH Hline).
Qed.

Lemma rstrip_line line :
  string_forall solid line = true →
  rstrip (line +:+ String newline "") = line.
Proof.
  induction line as [|c line IH]; simpl; [done|].
  intros [Hc Hline]%andb_true_iff. rewrite (IH Hline).
  destruct line; [|done]. by rewrite (solid_not_space c Hc).
Qed.

Lemma strip_line line :
  string_forall solid line = true →
  strip (line +:+ String newline "") = line.
Proof.
  intros Hline. unfold strip. destruct line as [|c line]; [done|].
  replace (lstrip (String c line +:+ String newline ""))
    with (String c line +:+ String newline "").
  - by apply rstrip_line.
  - simpl in *. apply andb_true_iff in Hline as [Hc _].
    by rewrite (solid_not_space c Hc).
Qed.

Lemma strip_solid s : string_forall solid s = true → strip s = s.
Proof.
  intros Hs. unfold strip.
  assert (lstrip s = s) as ->.
  { destruct s as [|c s]; [done|]. simpl in *.
    apply andb_true_iff in Hs as [Hc _]. by rewrite (solid_not_space c Hc). }
  induction s as [|c s IH]; simpl in *; [done|].
  apply andb_true_iff in Hs as [Hc Hs]. rewrite (IH Hs).
  destruct s; [|done]. by rewrite (solid_not_space c Hc).
Qed.

Lemma split_last field :
  string_forall plain field = true → split comma field = [field].
Proof.
  induction field as [|c field IH]; simpl; [done|].
  intros [Hc Hfield]%andb_true_iff.
  by rewrite (plain_not_comma c Hc), (IH Hfield).
Qed.

Lemma split_field field rest :
  string_forall plain field = true →
  split comma (field +:+ String comma rest) = field :: split comma rest.
Proof.
  induction field as [|c field IH]; simpl; [done|].
  intros [Hc Hfield]%andb_true_iff.
  by rewrite (plain_not_comma c Hc), (IH Hfield).
Qed.

(** *** [int(str(z)) = z] *)

Lemma digit_or_minus_plain s :
  string_forall digit_or_minus s = true → string_forall plain s = true.
Proof.
  induction s as [|c s IH]; simpl; [done|].
  intros [Hc Hs]%andb_true_iff. rewrite (IH Hs), andb_true_r.
  revert Hc.
  destruct c as [[|] [|] [|] [|] [|] [|] [|] [|]]; by vm_compute.
Qed.

Lemma string_of_uint_digits d :
  string_forall digit_or_minus (NilEmpty.string_of_uint d) = true.
Proof. induction d; simpl; by rewrite ?IHd. Qed.

Lemma py_str_digits z : string_forall digit_or_minus (py_str z) = true.
Proof.
  unfold py_str. destruct (Z.to_int z) as [d|d]; simpl.
  - destruct d; try done; simpl; by rewrite string_of_uint_digits.
  - destruct d; try done; simpl; by rewrite string_of_uint_digits.
Qed.

Lemma py_str_plain z : string_forall plain (py_str z) = true.
Proof. apply digit_or_minus_plain, py_str_digits. Qed.

Lemma py_str_solid z : string_forall solid (py_str z) = true.
Proof.
  apply (string_forall_impl plain), py_str_plain. apply plain_solid.
Qed.

Lemma py_str_nonempty z : py_str z ≠ "".
Proof.
  unfold py_str. destruct (Z.to_int z) as [d|d]; [|done].
  by destruct d.
Qed.

Lemma py_digits_after d :
  py_digits true (NilEmpty.string_of_uint d) = Some d.
Proof. induction d; simpl; by rewrite ?IHd. Qed.

Lemma py_digits_uint d :
  d ≠ Nil → py_digits false (NilEmpty.string_of_uint d) = Some d.
Proof. destruct d; try done; intros _; simpl; by rewrite py_digits_after. Qed.

Lemma int_literal_uint d :
  d ≠ Nil → int_literal (NilEmpty.string_of_uint d) = Some (Z.of_uint d).
Proof.
  intros Hd. pose proof (py_digits_uint d Hd) as Hdigits.
  destruct d; try done; simpl in *; by rewrite ?py_digits_after.
Qed.

Lemma solid_not_int_space c : solid c = true → is_int_space c = false.
Proof.
  destruct c as [[|] [|] [|] [|] [|] [|] [|] [|]]; by vm_compute.
Qed.

Lemma int_strip_solid s :
  string_forall solid s = true → int_rstrip (int_lstrip s) = s.
Proof.
  intros Hs.
  assert (int_lstrip s = s) as ->.
  { destruct s as [|c s]; [done|]. simpl in *.
    apply andb_true_iff in Hs as [Hc _].
    by rewrite (solid_not_int_space c Hc). }
  induction s as [|c s IH]; simpl in *; [done|].
  apply andb_true_iff in Hs as [Hc Hs]. rewrite (IH Hs).
  destruct s; [|done]. by rewrite (solid_not_int_space c Hc).
Qed.

Lemma py_int_py_str z : py_int (py_str z) = Ok z.
Proof.
  unfold py_int. rewrite (int_strip_solid _ (py_str_solid z)).
  unfold py_str.
  assert (int_literal (NilZero.string_of_int (Z.to_int z))
          = Some (Z.of_int (Z.to_int z))) as ->; [|by rewrite DecimalZ.of_to].
  destruct z as [|p|p]; simpl; [done| |].
  - pose proof (DecimalPos.Unsigned.to_uint_nonnil p) as Hnil.
    unfold NilZero.string_of_uint.
    destruct (Pos.to_uint p) eqn:Hp; try done;
      rewrite <- Hp in *; by apply int_literal_uint.
  - pose proof (DecimalPos.Unsigned.to_uint_nonnil p) as Hnil.
    unfold NilZero.string_of_uint.
    destruct (Pos.to_uint p) eqn:Hp; try done;
      rewrite <- Hp in *; by rewrite py_digits_uint.
Qed.

(** *** Records and tables *)

Lemma save_line_record p : save_line p = record p +:+ String newline "".
Proof.
  unfold save_line, record. simpl.
  repeat (rewrite append_assoc; simpl). done.
Qed.

Lemma valid_person_plain p :
  valid_person p → string_forall plain (sex p) = true.
Proof. by intros [-> | ->]. Qed.

Lemma record_solid p :
  valid_person p → string_forall solid (record p) = true.
Proof.
  intros Hsex. unfold record.
  repeat (rewrite string_forall_app; simpl).
  rewrite !py_str_solid. by destruct Hsex as [-> | ->].
Qed.

Lemma record_nonempty p : record p ≠ "".
Proof.
  unfold record. pose proof (py_str_nonempty (id p)).
  by destruct (py_str (id p)).
Qed.

Lemma split_record p :
  valid_person p →
  split comma (record p)
  = [py_str (id p); sex p; py_str (age p); py_str (alive p);
     py_str (health p); py_str (fertility p); py_str (partner_id p);
     py_str (children_count p)].
Proof.
  intros Hsex%valid_person_plain. unfold record.
  rewrite !split_field, split_last; auto using py_str_plain.
Qed.

Lemma parse_person_record p :
  valid_person p → parse_person (split comma (record p)) = Ok p.
Proof.
  intros Hp. rewrite (split_record p Hp).
  unfold parse_person, item_at, mbind, result_bind. simpl.
  rewrite !py_int_py_str. by destruct p.
Qed.

Lemma parse_person_record_extra p extra :
  valid_person p → parse_person (split comma (record p) ++ extra) = Ok p.
Proof.
  intros Hp. rewrite parse_person_extra; [by apply parse_person_record|].
  by rewrite (split_record p Hp).
Qed.

(** What [int] skips and what [str.strip] removes differ on the separators
    [0x1c]-[0x1f]. *)
Lemma py_int_separator :
  strip separator_field = "5" ∧ py_int separator_field = Raise ValueError
  ∧ py_int (String "009"%char ("5" +:+ String newline "")) = Ok 5.
Proof. split_and!; vm_compute; reflexivity. Qed.

(** C4 (amended): take a snapshot of ASCII text.  When one of its records
    has fewer than eight fields, or a value that [int] rejects in one of its
    seven integer fields, [load_population] raises [IndexError] or
    [ValueError] and returns no table, the bad record being neither dropped
    nor coerced.  The caller takes the exception and substitutes a freshly
    generated initial population, which it saves at once.  Fields past the
    eighth are ignored: a record is read as the record of its first eight
    fields, so a saved record followed by further fields is loaded as the
    agent that was saved. *)
Theorem load_malformed_record {G} `{Entropy G}
    (text line : string) (g : G) :
  string_forall text_char text = true →
  line ∈ tail (readlines text) → strip line ≠ "" →
  malformed (split comma (strip line)) = true →
  (∃ e, load_population (Some text) = Raise e
        ∧ (e = IndexError ∨ e = ValueError))
  ∧ load_or_initialize (Some text) g
    = (let '(population, g') := generate_initial_population g in
       (population, Some (save_population population), g'))
  ∧ (∀ item extra, length item = 8%nat →
       parse_person (item ++ extra) = parse_person item)
  ∧ (∀ p extra, valid_person p →
       parse_person (split comma (record p) ++ extra) = Ok p).
Proof.
  intros _ Hin Hblank Hbad.
  destruct (load_lines_malformed _ line Hin Hblank Hbad) as (e & He & Hor).
  split_and!.
  - exists e. by split.
  - unfold load_or_initialize, load_population. rewrite He. done.
  - apply parse_person_extra.
  - apply parse_person_record_extra.
Qed.

Lemma load_malformed_record_witness :
  (∃ e, load_population (Some separator_snapshot) = Raise e
        ∧ (e = IndexError ∨ e = ValueError))
  ∧ load_or_initialize (Some separator_snapshot) ([] : list Z)
    = (let '(population, g') := generate_initial_population ([] : list Z) in
       (population, Some (save_population population), g')).
Proof.
  pose proof (load_malformed_record separator_snapshot separator_line
                ([] : list Z)) as Hload.
  destruct Hload as (Hraise & Hmain & _).
  - vm_compute. reflexivity.
  - apply (bool_decide_unpack _). vm_compute. exact I.
  - apply (bool_decide_unpack _). vm_compute. exact I.
  - vm_compute. reflexivity.
  - by split.
Defined.

Lemma load_lines_save_lines population :
  Forall valid_person population →
  load_lines (readlines (save_lines population)) = Ok population.
Proof.
  induction 1 as [|p rest Hp Hrest IH]; [done|]. simpl.
  rewrite save_line_record, append_assoc. simpl.
  rewrite (readlines_line _ _ (record_solid p Hp)).
  change (load_lines ((record p +:+ String newline "")
                        :: readlines (save_lines rest)))
    with (let line := strip (record p +:+ String newline "") in
          if String.eqb line "" then load_lines (readlines (save_lines rest))
          else q ← parse_person (split comma line);
               population ← load_lines (readlines (save_lines rest));
               Ok (q :: population)).
  rewrite (strip_line _ (record_solid p Hp)). simpl.
  destruct (String.eqb_spec (record p) "") as [Hnil|_];
    [by apply record_nonempty in Hnil|].
  by rewrite (parse_person_record p Hp), IH.
Qed.

Lemma load_save population :
  Forall valid_person population →
  load_population (Some (save_population population)) = Ok population.
Proof.
  intros Hvalid. unfold load_population, save_population.
  change (String newline "" +:+ save_lines population)
    with (String newline (save_lines population)).
  rewrite (readlines_line header (save_lines population)) by done.
  by apply load_lines_save_lines.
Qed.

(** C9: for a table whose [sex] fields are M or F (no bound on the integer
    fields is needed), loading what [save_population] wrote gives the table
    back, field for field, so saving the loaded table writes the same
    snapshot again.  The flags are written as 0 and 1, and the missing
    partner as -1. *)
Theorem save_load_round_trip (population : list person) :
  Forall valid_person population →
  load_population (Some (save_population population)) = Ok population
  ∧ (loaded ← load_population (Some (save_population population));
     Ok (save_population loaded)) = Ok (save_population population)
  ∧ py_str 0 = "0" ∧ py_str 1 = "1" ∧ py_str (-1) = "-1".
Proof.
  intros Hvalid. rewrite (load_save population Hvalid). by split_and!.
Qed.

Lemma save_load_round_trip_witness :
  load_population (Some (save_population couple_5_6)) = Ok couple_5_6.
Proof.
  apply (save_load_round_trip couple_5_6).
  apply Forall_cons. split; [by left|].
  apply Forall_cons. split; [by right|].
  apply Forall_nil_2.
Defined.

(** * Further properties of the simulation *)

(** ** The initial population *)

Lemma census_all_alive population :
  Forall (λ p, alive p = 1) population → census population = length population.
Proof.
  unfold census. induction 1 as [|p rest Hp _ IH]; [done|].
  rewrite filter_cons_True by done. simpl. by rewrite IH.
Qed.

Section Founders.
Context {G : Type} `{Entropy G}.

Lemma founders_spec n sx next_id (g : G) :
  length (founders n sx next_id g).1 = n
  ∧ ids (founders n sx next_id g).1 = seqZ next_id (Z.of_nat n)
  ∧ Forall (founder sx) (founders n sx next_id g).1.
Proof.
  revert next_id g. induction n as [|n IH]; intros next_id g.
  { by split_and!. }
  simpl founders.
  pose proof (randint_range 18 40 g) as Ha.
  destruct (randint 18 40 g) as [a g1].
  pose proof (randint_range 70 100 g1) as Hh.
  destruct (randint 70 100 g1) as [h g2].
  destruct (IH (next_id + 1) g2) as (Hlen & Hids & Hall).
  destruct (founders n sx (next_id + 1) g2) as [rest g3].
  simpl in *. split_and!.
  - by rewrite Hlen.
  - rewrite seqZ_cons by lia. unfold ids in *. simpl.
    rewrite Hids. do 2 f_equal; lia.
  - constructor; [|done]. unfold founder. simpl. split_and!; try done; lia.
Qed.

End Founders.

(** X1: whatever the generator, [generate_initial_population] returns twenty
    agents with the ids 0 to 19 in order, ten men followed by ten women,
    every age within 18..40 and every health within 70..100, all alive,
    fertile, without partner and without children.  The table satisfies the
    table invariant and its census is 20. *)
Theorem generate_initial_population_shape {G} `{Entropy G} (g : G) :
  length (generate_initial_population g).1 = 20%nat
  ∧ ids (generate_initial_population g).1 = seqZ 0 20
  ∧ (∀ i p, (generate_initial_population g).1 !! i = Some p →
       founder (if decide (i < 10)%nat then "M" else "F") p)
  ∧ table_invariant (generate_initial_population g).1
  ∧ census (generate_initial_population g).1 = 20%nat.
Proof.
  unfold generate_initial_population.
  destruct (founders_spec 10 "M" 0 g) as (Hlen1 & Hids1 & Hall1).
  destruct (founders 10 "M" 0 g) as [men g1].
  destruct (founders_spec 10 "F" 10 g1) as (Hlen2 & Hids2 & Hall2).
  destruct (founders 10 "F" 10 g1) as [women g2]. simpl in *.
  assert (ids (men ++ women) = seqZ 0 20) as Hids.
  { unfold ids in *. rewrite fmap_app, Hids1, Hids2.
    vm_compute. reflexivity. }
  assert (∀ i p, (men ++ women) !! i = Some p →
            founder (if decide (i < 10)%nat then "M" else "F") p) as Hrows.
  { intros i p [Hi | [Hge Hi]]%lookup_app_Some.
    - rewrite decide_True by (apply lookup_lt_Some in Hi; lia).
      rewrite Forall_lookup in Hall1. by eapply Hall1.
    - rewrite decide_False by lia.
      rewrite Forall_lookup in Hall2. by eapply Hall2. }
  split_and!; try done.
  - by rewrite length_app, Hlen1, Hlen2.
  - unfold table_invariant. rewrite Hids. split_and!.
    + apply NoDup_seqZ.
    + apply Forall_forall.
      intros x [i [-> _]%lookup_seqZ]%list_elem_of_lookup. lia.
    + intros i p Hi Hp.
      destruct (Hrows i p Hi) as (_ & _ & _ & _ & _ & ? & _). done.
  - rewrite census_all_alive; [by rewrite length_app, Hlen1, Hlen2|].
    apply Forall_lookup. intros i p Hi.
    by destruct (Hrows i p Hi) as (_ & _ & _ & ? & _).
Qed.

Lemma founder_valid sx p :
  sx = "M" ∨ sx = "F" → founder sx p → valid_person p.
Proof. unfold founder, valid_person. intros Hsx [-> _]. done. Qed.

Lemma generate_initial_population_valid {G} `{Entropy G} (g : G) :
  Forall valid_person (generate_initial_population g).1
  ∧ (generate_initial_population g).1 ≠ [].
Proof.
  unfold generate_initial_population.
  destruct (founders_spec 10 "M" 0 g) as (Hlen1 & _ & Hall1).
  destruct (founders 10 "M" 0 g) as [men g1].
  destruct (founders_spec 10 "F" 10 g1) as (_ & _ & Hall2).
  destruct (founders 10 "F" 10 g1) as [women g2]. simpl in *.
  split.
  - apply Forall_app. split.
    + eapply Forall_impl; [exact Hall1|]. intros p. apply founder_valid. auto.
    + eapply Forall_impl; [exact Hall2|]. intros p. apply founder_valid. auto.
  - destruct men; [done|]. done.
Qed.

(** ** Loading or initialising *)

(** X2: whatever the snapshot (missing, malformed, empty or good) and the
    generator, the table that the head of the loop of [main] ends up with is
    not empty, and the snapshot it leaves on disk loads to exactly that
    table; a second pass through the same code returns the same table and
    snapshot and draws nothing.  A snapshot that loads to a non-empty table
    is taken as it is, without a draw and without a write. *)
Theorem load_or_initialize_settles {G} `{Entropy G}
    (file : option string) (g : G) :
  (load_or_initialize file g).1.1 ≠ []
  ∧ load_population (load_or_initialize file g).1.2
    = Ok (load_or_initialize file g).1.1
  ∧ (∀ g2 : G,
       load_or_initialize (load_or_initialize file g).1.2 g2
       = ((load_or_initialize file g).1.1,
          (load_or_initialize file g).1.2, g2))
  ∧ (∀ population, load_population file = Ok population →
       population ≠ [] →
       load_or_initialize file g = (population, file, g)).
Proof.
  assert (∀ f T (g0 : G), load_population f = Ok T → T ≠ [] →
            load_or_initialize f g0 = (T, f, g0)) as Hkeep.
  { intros f T g0 Hload Hne. unfold load_or_initialize. rewrite Hload.
    simpl. destruct T; [done|]. done. }
  assert (∃ T f, (load_or_initialize file g).1 = (T, f)
                 ∧ T ≠ [] ∧ load_population f = Ok T) as (T & f & Hres & Hne & Hf).
  { unfold load_or_initialize.
    destruct (generate_initial_population_valid g) as [Hvalid Hgen].
    destruct (population ← load_population file;
              if Nat.eqb (length population) 0 then Raise FileNotFoundError
              else Ok population) as [T|e] eqn:Hloaded.
    - exists T, file. destruct (load_population file) as [T0|]; [|done].
      simpl in Hloaded. destruct T0; [done|]. simpl in Hloaded.
      injection Hloaded as <-. done.
    - destruct (generate_initial_population g) as [T g'].
      exists T, (Some (save_population T)). simpl in *.
      split_and!; [done|done|by apply load_save]. }
  rewrite Hres. simpl. split_and!; try done.
  - intros g2. by apply Hkeep.
  - intros population Hload Hne'. by apply Hkeep.
Qed.

(** ** What a step can raise *)

Lemma couples_from_raises population i rows visited e :
  couples_from population i rows visited = Raise e → e = StopIteration.
Proof.
  revert i visited. induction rows as [|p rest IH]; intros i visited; [done|].
  simpl. destruct (decide _); [|by apply IH].
  unfold find_partner. destruct (list_find _ population) as [[j q]|];
    [|by intros [= <-]].
  simpl. destruct (couples_from population (S i) rest _) eqn:Hrest; [done|].
  simpl. intros [= <-]. by eapply IH.
Qed.

Section StepErrors.
Context {G : Type} `{Entropy G}.

Lemma pairing_nil (g : G) : (pairing [] g).1 = [].
Proof.
  pose proof (pairing_length [] g) as Hlen.
  by destruct (pairing [] g).1.
Qed.

(** X3: on an empty table a step raises [ValueError] (the [max] of
    [reproduce] over no ids), although nothing is there to do.  On a table
    that is not empty the only exception a step can raise is the
    [StopIteration] of the partner lookup. *)
Theorem step_raises (population : list person) (g : G) :
  (population = [] → step population g = Raise ValueError)
  ∧ (population ≠ [] → ∀ e, step population g = Raise e → e = StopIteration).
Proof.
  split.
  - intros ->. unfold step. simpl.
    pose proof (pairing_nil g) as Hnil.
    destruct (pairing [] g) as [T4 g2]. simpl in Hnil. subst T4. done.
  - intros Hne e. unfold step.
    pose proof (death_length population g) as Hdl.
    destruct (death population g) as [T1 g1]. simpl in Hdl.
    pose proof (pairing_length (fertility_update (aging_update T1)) g1)
      as Hlen4.
    destruct (pairing (fertility_update (aging_update T1)) g1) as [T4 g2].
    simpl in Hlen4.
    unfold fertility_update, aging_update in Hlen4.
    rewrite !length_fmap, Hdl in Hlen4.
    unfold get_all_couples.
    destruct (couples_from T4 0 T4 ∅) as [couples|e'] eqn:Hcouples; simpl.
    + assert (T4 ≠ []) as Hne4.
      { intros ->. destruct population; [done|]. simpl in Hlen4. lia. }
      destruct (reproduce_total T4 couples g2 Hne4) as (T5 & g3 & ->).
      done.
    + intros [= <-]. by eapply couples_from_raises.
Qed.

End StepErrors.

Lemma step_raises_witness :
  step ([] : list person) ([] : list Z) = Raise ValueError.
Proof.
  apply (step_raises ([] : list person) ([] : list Z)). reflexivity.
Defined.

(** ** The mortality pass as a whole *)

Lemma census_cons p rest :
  census (p :: rest)
  = ((if decide (alive p = 1%Z) then 1 else 0) + census rest)%nat.
Proof. unfold census. rewrite filter_cons. by destruct (decide _). Qed.

Lemma census_app population population' :
  census (population ++ population')
  = (census population + census population')%nat.
Proof. unfold census. by rewrite filter_app, length_app. Qed.

(** The census reads the [alive] column only. *)
Lemma census_alive_ext population population' :
  alive <$> population = alive <$> population' →
  census population = census population'.
Proof.
  revert population'.
  induction population as [|p rest IH]; intros [|p' rest']; try done.
  simpl. intros [= Hp Hrest]. rewrite !census_cons, Hp.
  by rewrite (IH rest' Hrest).
Qed.

Section MortalityPass.
Context {G : Type} `{Entropy G}.

Lemma death_rows population (g : G) :
  Forall2 (λ p p', p' = p ∨ p' = set_alive 0 p) population
          (death population g).1.
Proof.
  revert g. induction population as [|p rest IH]; intros g; simpl.
  { constructor. }
  destruct (death_one_fields p g) as (v & Hv & Hor).
  destruct (death_one p g) as [p' g1]. simpl in Hv.
  specialize (IH g1). destruct (death rest g1) as [rest' g2]. simpl in *.
  constructor; [|done].
  destruct Hor as [-> | ->]; subst p'; [by right|left].
  apply set_alive_same.
Qed.

Lemma death_census population (g : G) :
  (census (death population g).1 ≤ census population)%nat.
Proof.
  induction (death_rows population g) as [|p p' rest rest' Hp _ IH];
    [done|].
  rewrite !census_cons.
  destruct Hp as [-> | ->]; simpl; repeat case_decide; simpl; lia.
Qed.

(** [death_one] makes one check at most, the one of the band of the age. *)
Lemma death_one_by_band p (g : G) :
  death_one p g
  = match death_cutoff (age p) with
    | Some cutoff => mortality_check cutoff p g
    | None => (p, g)
    end.
Proof.
  assert (∀ a lo hi, (a <? hi) && (a >? lo) = (lo <? a) && (a <? hi))
    as Hband.
  { intros a lo hi. rewrite Z.gtb_ltb. apply andb_comm. }
  unfold death_one, death_cutoff.
  destruct (age p <? 1) eqn:Hbaby.
  - pose proof (mortality_check_fields cut_0_05 p g) as (v & Hv & _).
    destruct (mortality_check cut_0_05 p g) as [p1 g1]. simpl in Hv.
    subst p1. replace (age (set_alive v p)) with (age p) by done.
    rewrite !Hband, Z.geb_leb.
    assert ((1 <? age p) = false) as -> by lia.
    assert ((15 <? age p) = false) as -> by lia.
    assert ((40 <? age p) = false) as -> by lia.
    assert ((55 <? age p) = false) as -> by lia.
    assert ((70 <? age p) = false) as -> by lia.
    assert ((85 <=? age p) = false) as -> by lia.
    done.
  - rewrite !Hband, Z.geb_leb.
    destruct ((1 <? age p) && (age p <? 15)); [done|].
    destruct ((15 <? age p) && (age p <? 40)); [done|].
    destruct ((40 <? age p) && (age p <? 55)); [done|].
    destruct ((55 <? age p) && (age p <? 70)); [done|].
    destruct ((70 <? age p) && (age p <? 85)); [done|].
    by destruct (85 <=? age p).
Qed.

End MortalityPass.

(** X4: the mortality pass keeps the length of the table and never brings
    anyone back: each row comes out as it went in or with [alive] cleared
    to 0 and no other field touched, so the census after the pass is at
    most the census before it. *)
Theorem death_only_kills {G} `{Entropy G}
    (population : list person) (g : G) :
  length (death population g).1 = length population
  ∧ (∀ i p, population !! i = Some p →
       (death population g).1 !! i = Some p
       ∨ (death population g).1 !! i = Some (set_alive 0 p))
  ∧ (census (death population g).1 ≤ census population)%nat.
Proof.
  split_and!.
  - apply death_length.
  - intros i p Hi.
    pose proof (death_rows population g) as Hrows.
    rewrite Forall2_lookup in Hrows. specialize (Hrows i).
    rewrite Hi in Hrows. inversion Hrows as [x y Hxy|]; subst.
    destruct Hxy as [-> | ->]; auto.
  - apply death_census.
Qed.

(** X5: every agent gets at most one mortality draw, chosen by its age
    alone: 0.05 below 1 (negative ages included), 0.01 strictly between 1
    and 15, 0.005 between 15 and 40, 0.02 between 40 and 55, 0.05 between
    55 and 70, 0.15 between 70 and 85, 0.35 from 85 on, and no draw at
    1, 15, 40, 55 and 70.  The stand-alone test [age < 1] in front of the
    chain never adds a second draw. *)
Theorem death_one_single_check {G} `{Entropy G} (p : person) (g : G) :
  death_one p g
  = match death_cutoff (age p) with
    | Some cutoff => mortality_check cutoff p g
    | None => (p, g)
    end
  ∧ (death_cutoff (age p) = None ↔ age p ∈ [1; 15; 40; 55; 70]).
Proof.
  split; [apply death_one_by_band|].
  assert (age p ∈ [1; 15; 40; 55; 70]
          ↔ age p = 1 ∨ age p = 15 ∨ age p = 40 ∨ age p = 55 ∨ age p = 70)
    as -> by (rewrite !elem_of_cons, elem_of_nil; tauto).
  unfold death_cutoff.
  repeat (match goal with
          | |- context [?a <? ?b] => destruct (Z.ltb_spec a b)
          | |- context [?a <=? ?b] => destruct (Z.leb_spec a b)
          end; simpl);
    (split; [intros ?; try done; lia | intros ?; try done; lia]).
Qed.

(** ** The fertility pass, twice *)

(** X6: the fertility update is idempotent: running it a second time on
    its own result changes nothing. *)
Theorem fertility_update_idempotent (population : list person) :
  fertility_update (fertility_update population) = fertility_update population.
Proof.
  unfold fertility_update. rewrite <- list_fmap_compose.
  apply list_fmap_ext. intros _ p _. simpl.
  rewrite !fertility_one_spec. unfold fertility_after.
  destruct p as [i s a al h f pa c]; simpl.
  repeat case_decide; simpl; try done; try lia.
  all: exfalso; intuition lia.
Qed.

(** ** Single extraction, exactly *)

Lemma single_people_from_men_complete i rows k p :
  rows !! k = Some p → living_single "M" p →
  (i + k)%nat ∈ (single_people_from i rows).1.
Proof.
  intros Hk (Ha & Hp & Hs). revert i k Hk.
  induction rows as [|q rest IH]; intros i k Hk; [done|]. simpl.
  destruct k as [|k]; simpl in Hk.
  - injection Hk as ->. rewrite Ha, Hp, Hs, Nat.add_0_r. simpl.
    destruct (single_people_from (S i) rest). simpl. by left.
  - specialize (IH (S i) k Hk).
    replace (i + S k)%nat with (S i + k)%nat by lia.
    destruct (single_people_from (S i) rest) as [men women]. simpl in IH.
    destruct ((alive q =? 1) && (partner_id q =? -1)); [|done].
    destruct (String.eqb (sex q) "M"); simpl; [by right|].
    by destruct (String.eqb (sex q) "F").
Qed.

Lemma single_people_from_women_complete i rows k p :
  rows !! k = Some p → living_single "F" p →
  (i + k)%nat ∈ (single_people_from i rows).2.
Proof.
  intros Hk (Ha & Hp & Hs). revert i k Hk.
  induction rows as [|q rest IH]; intros i k Hk; [done|]. simpl.
  destruct k as [|k]; simpl in Hk.
  - injection Hk as ->. rewrite Ha, Hp, Hs, Nat.add_0_r. simpl.
    destruct (single_people_from (S i) rest). simpl. by left.
  - specialize (IH (S i) k Hk).
    replace (i + S k)%nat with (S i + k)%nat by lia.
    destruct (single_people_from (S i) rest) as [men women]. simpl in IH.
    destruct ((alive q =? 1) && (partner_id q =? -1)); [|done].
    destruct (String.eqb (sex q) "M"); simpl; [done|].
    destruct (String.eqb (sex q) "F"); simpl; [by right|done].
Qed.

Lemma single_people_from_sorted i rows :
  StronglySorted lt (single_people_from i rows).1
  ∧ StronglySorted lt (single_people_from i rows).2.
Proof.
  revert i. induction rows as [|q rest IH]; intros i; simpl.
  { split; constructor. }
  pose proof (λ m, single_people_from_men (S i) rest m) as Hmen.
  pose proof (λ w, single_people_from_women (S i) rest w) as Hwomen.
  destruct (IH (S i)) as [IH1 IH2].
  destruct (single_people_from (S i) rest) as [men women]. simpl in *.
  assert (Forall (lt i) men)
    by (apply Forall_forall; intros m (? & ? & _)%Hmen; lia).
  assert (Forall (lt i) women)
    by (apply Forall_forall; intros w (? & ? & _)%Hwomen; lia).
  destruct ((alive q =? 1) && (partner_id q =? -1)); [|done].
  destruct (String.eqb (sex q) "M"); simpl; [by split; [constructor|]|].
  destruct (String.eqb (sex q) "F"); simpl; [by split; [|constructor]|done].
Qed.

Lemma get_single_people_members population :
  (∀ i, i ∈ (get_single_people population).1
        ↔ ∃ p, population !! i = Some p ∧ living_single "M" p)
  ∧ (∀ i, i ∈ (get_single_people population).2
          ↔ ∃ p, population !! i = Some p ∧ living_single "F" p).
Proof.
  unfold get_single_people. split.
  - intros i. split.
    + intros (p & _ & Hp & ?)%single_people_from_men.
      rewrite Nat.sub_0_r in Hp. by exists p.
    + intros (p & Hp & Hsingle).
      by apply (single_people_from_men_complete 0 population i p).
  - intros i. split.
    + intros (p & _ & Hp & ?)%single_people_from_women.
      rewrite Nat.sub_0_r in Hp. by exists p.
    + intros (p & Hp & Hsingle).
      by apply (single_people_from_women_complete 0 population i p).
Qed.

(** X7: [get_single_people] lists exactly the positions of the living
    agents without partner whose sex is the string "M", and apart from them
    exactly those whose sex is the string "F", each list in table order.
    A living single of any other sex string is in neither list. *)
Theorem get_single_people_exact (population : list person) :
  (∀ i, i ∈ (get_single_people population).1
        ↔ ∃ p, population !! i = Some p ∧ living_single "M" p)
  ∧ (∀ i, i ∈ (get_single_people population).2
          ↔ ∃ p, population !! i = Some p ∧ living_single "F" p)
  ∧ StronglySorted lt (get_single_people population).1
  ∧ StronglySorted lt (get_single_people population).2.
Proof.
  destruct (get_single_people_members population) as [Hmen Hwomen].
  split_and!; try done; apply single_people_from_sorted.
Qed.

(** ** Matching *)

(** X8: [pair_people] forms as many pairs as the shorter list is long.  The
    men of the pairs are men of the list, each taken no more often than he
    is listed, and likewise the women; when the men are not more than the
    women every man is paired, and when the women are not more than the men
    every woman is. *)
Theorem pair_people_count {G} `{Entropy G} (men women : list nat) (g : G) :
  length (pair_people men women g).1 = (length men `min` length women)%nat
  ∧ (pair_people men women g).1.*1 ⊆+ men
  ∧ (pair_people men women g).1.*2 ⊆+ women
  ∧ ((length men ≤ length women)%nat →
     (pair_people men women g).1.*1 ≡ₚ men)
  ∧ ((length women ≤ length men)%nat →
     (pair_people men women g).1.*2 ≡ₚ women).
Proof.
  unfold pair_people.
  pose proof (shuffle_perm men g) as Hmen.
  destruct (shuffle men g) as [men' g1]. simpl in Hmen.
  pose proof (shuffle_perm women g1) as Hwomen.
  destruct (shuffle women g1) as [women' g2]. simpl in *.
  pose proof (Permutation_length Hmen) as Hlm.
  pose proof (Permutation_length Hwomen) as Hlw.
  split_and!.
  - rewrite length_zip. lia.
  - rewrite <- Hmen. apply sublist_submseteq, zip_fst_sublist.
  - rewrite <- Hwomen. apply sublist_submseteq, zip_snd_sublist.
  - intros Hle. rewrite fst_zip by lia. done.
  - intros Hle. rewrite snd_zip by lia. done.
Qed.

Lemma pair_people_count_witness :
  (pair_people [0; 2]%nat [1; 3; 4]%nat [1; 0]).1.*1 ≡ₚ [0; 2]%nat.
Proof.
  apply (pair_people_count [0; 2]%nat [1; 3; 4]%nat [1; 0]). simpl. lia.
Defined.

(** ** The pairing as a whole *)

Section PairingWhole.
Context {G : Type} `{Entropy G}.

(** The pairs behind [pairing], with what is known of them. *)
Lemma pairing_pairs population (g : G) :
  ∃ pairs,
    (pairing population g).1 = apply_pairs pairs population
    ∧ disjoint_pairs pairs
    ∧ (∀ m w, (m, w) ∈ pairs →
         ∃ pm pw, population !! m = Some pm ∧ population !! w = Some pw
                  ∧ living_single "M" pm ∧ living_single "F" pw)
    ∧ ((length (get_single_people population).1
        ≤ length (get_single_people population).2)%nat →
       ∀ m, m ∈ (get_single_people population).1 → m ∈ pairs.*1)
    ∧ ((length (get_single_people population).2
        ≤ length (get_single_people population).1)%nat →
       ∀ w, w ∈ (get_single_people population).2 → w ∈ pairs.*2).
Proof.
  unfold pairing.
  pose proof (get_single_people_spec population) as Hsingles.
  destruct (get_single_people population) as [men women].
  destruct Hsingles as (Hnd & Hmen & Hwomen).
  destruct (pair_people_spec men women g Hnd) as [Hdisj Hin].
  assert (((length men ≤ length women)%nat →
           (pair_people men women g).1.*1 ≡ₚ men)
          ∧ ((length women ≤ length men)%nat →
             (pair_people men women g).1.*2 ≡ₚ women)) as [Hall1 Hall2].
  { unfold pair_people.
    pose proof (shuffle_perm men g) as Hpm.
    destruct (shuffle men g) as [men' g1]. simpl in Hpm.
    pose proof (shuffle_perm women g1) as Hpw.
    destruct (shuffle women g1) as [women' g2]. simpl in *.
    pose proof (Permutation_length Hpm). pose proof (Permutation_length Hpw).
    split; intros Hle; [rewrite fst_zip by lia|rewrite snd_zip by lia];
      done. }
  destruct (pair_people men women g) as [pairs g']. simpl in *.
  exists pairs. split_and!; try done.
  - intros m w Hmw. destruct (Hin m w Hmw) as [Hm Hw].
    destruct (Hmen m Hm) as (pm & ? & ? & ? & ?).
    destruct (Hwomen w Hw) as (pw & ? & ? & ? & ?).
    by exists pm, pw.
  - intros Hle m Hm. by rewrite (Hall1 Hle).
  - intros Hle w Hw. by rewrite (Hall2 Hle).
Qed.

Lemma pairing_alive population (g : G) :
  alive <$> (pairing population g).1 = alive <$> population.
Proof.
  destruct (pairing_pairs population g) as (pairs & -> & _).
  apply list_eq. intros i. rewrite !list_lookup_fmap.
  destruct (population !! i) as [p|] eqn:Hi.
  - by destruct (apply_pairs_fields pairs population i p Hi) as [v ->].
  - apply lookup_ge_None in Hi.
    rewrite (proj2 (lookup_ge_None _ _)); [done|].
    by rewrite apply_pairs_length.
Qed.

End PairingWhole.

(** X9: when no id of the table is -1, the pairing uses up the singles of
    one sex: in the table it returns, no living man is without partner or
    no living woman is.  (A man tied to a woman whose id is -1 would still
    count as single, hence the condition.) *)
Theorem pairing_exhausts_one_sex {G} `{Entropy G}
    (population : list person) (g : G) :
  Forall (λ x, x ≠ -1) (ids population) →
  (get_single_people (pairing population g).1).1 = []
  ∨ (get_single_people (pairing population g).1).2 = [].
Proof.
  intros Hids.
  assert (∀ j q, population !! j = Some q → id q ≠ -1) as Hid.
  { intros j q Hj. rewrite Forall_lookup in Hids.
    exact (Hids j (id q) (ids_lookup _ _ _ Hj)). }
  destruct (pairing_pairs population g)
    as (pairs & Hres & Hdisj & Hpairs & Hmen & Hwomen).
  pose proof (get_single_people_members population) as (Hm & Hw).
  assert (∀ sx i p1, (pairing population g).1 !! i = Some p1 →
            living_single sx p1 →
            ∃ p, population !! i = Some p ∧ living_single sx p
                 ∧ (i ∉ pairs.*1) ∧ (i ∉ pairs.*2)) as Hleft.
  { intros sx i p1 Hi1 (Ha & Hp & Hs). rewrite Hres in Hi1.
    assert (is_Some (population !! i)) as [p Hi].
    { apply lookup_lt_is_Some. rewrite <- (apply_pairs_length pairs).
      by eapply lookup_lt_Some. }
    assert (i ∉ pairs.*1) as Hn1.
    { intros ([m w] & -> & Hmw)%list_elem_of_fmap. simpl in *.
      destruct (Hpairs m w Hmw) as (pm & pw & Hpm & Hpw & _).
      destruct (apply_pairs_both pairs population m w pm pw Hdisj Hmw Hpm Hpw)
        as [Hnew _].
      rewrite Hnew in Hi1. injection Hi1 as <-. simpl in Hp.
      by apply (Hid w pw). }
    assert (i ∉ pairs.*2) as Hn2.
    { intros ([m w] & -> & Hmw)%list_elem_of_fmap. simpl in *.
      destruct (Hpairs m w Hmw) as (pm & pw & Hpm & Hpw & _).
      destruct (apply_pairs_both pairs population m w pm pw Hdisj Hmw Hpm Hpw)
        as [_ Hnew].
      rewrite Hnew in Hi1. injection Hi1 as <-. simpl in Hp.
      by apply (Hid m pm). }
    rewrite apply_pairs_other in Hi1 by done.
    exists p. assert (p1 = p) as -> by congruence. done. }
  pose proof (get_single_people_members (pairing population g).1)
    as (Hm1 & Hw1).
  destruct (decide (length (get_single_people population).1
                    ≤ length (get_single_people population).2)%nat)
    as [Hle|Hgt].
  - left. apply elem_of_nil_inv. intros i (p1 & Hi1 & Hs1)%Hm1.
    destruct (Hleft "M" i p1 Hi1 Hs1) as (p & Hi & Hs & Hn1 & _).
    apply Hn1, (Hmen Hle), Hm. by exists p.
  - right. apply elem_of_nil_inv. intros i (p1 & Hi1 & Hs1)%Hw1.
    destruct (Hleft "F" i p1 Hi1 Hs1) as (p & Hi & Hs & _ & Hn2).
    apply Hn2, (Hwomen ltac:(lia)), Hw. by exists p.
Qed.

Lemma pairing_exhausts_one_sex_witness :
  (get_single_people (pairing singles_3_4 [0; 0]).1).1 = []
  ∨ (get_single_people (pairing singles_3_4 [0; 0]).1).2 = [].
Proof.
  apply (pairing_exhausts_one_sex singles_3_4 [0; 0]).
  apply (bool_decide_unpack _). vm_compute. exact I.
Defined.

(** X10: the pairing never breaks what is there.  A row that has a partner,
    is not alive, or has a sex other than "M" and "F" comes out as it went
    in; any other row comes out with at most its [partner_id] assigned.  The
    length of the table and its census are unchanged. *)
Theorem pairing_frame {G} `{Entropy G}
    (population : list person) (g : G) (i : nat) (p : person) :
  population !! i = Some p →
  (∃ v, (pairing population g).1 !! i = Some (set_partner_id v p))
  ∧ (partner_id p ≠ -1 ∨ alive p ≠ 1 ∨ (sex p ≠ "M" ∧ sex p ≠ "F") →
     (pairing population g).1 !! i = Some p)
  ∧ length (pairing population g).1 = length population
  ∧ census (pairing population g).1 = census population.
Proof.
  intros Hi.
  destruct (pairing_pairs population g)
    as (pairs & Hres & Hdisj & Hpairs & _).
  split_and!.
  - rewrite Hres. by apply apply_pairs_fields.
  - intros Hfixed. rewrite Hres, apply_pairs_other; [done| |].
    + intros ([m w] & -> & Hmw)%list_elem_of_fmap. simpl in *.
      destruct (Hpairs m w Hmw) as (pm & pw & Hpm & _ & (? & ? & ?) & _).
      assert (pm = p) as -> by congruence.
      destruct Hfixed as [? | [? | [? ?]]]; done.
    + intros ([m w] & -> & Hmw)%list_elem_of_fmap. simpl in *.
      destruct (Hpairs m w Hmw) as (pm & pw & _ & Hpw & _ & (? & ? & ?)).
      assert (pw = p) as -> by congruence.
      destruct Hfixed as [? | [? | [? ?]]]; done.
  - apply pairing_length.
  - apply census_alive_ext, pairing_alive.
Qed.

Lemma pairing_frame_witness :
  (pairing couple_5_6 [0; 0]).1 !! 0%nat
  = Some (mk_person 5 "M" 30 1 80 1 6 0).
Proof.
  apply (pairing_frame couple_5_6 [0; 0] 0 (mk_person 5 "M" 30 1 80 1 6 0)
           eq_refl).
  left. simpl. lia.
Defined.

(** ** The list of couples, whatever the table *)

Lemma couples_from_structure population i rows visited couples :
  drop i population = rows →
  couples_from population i rows visited = Ok couples →
  Forall (λ c, (i ≤ c.1)%nat ∧ couple_entry population visited c) couples
  ∧ StronglySorted (later_apart population) couples.
Proof.
  revert i visited couples.
  induction rows as [|p rest IH]; intros i visited couples Hdrop Hrun.
  { simpl in Hrun. injection Hrun as <-. split; constructor. }
  assert (population !! i = Some p) as Hi.
  { rewrite <- (Nat.add_0_r i), <- lookup_drop, Hdrop. done. }
  assert (drop (S i) population = rest) as Hdrop'.
  { rewrite (drop_S _ _ _ Hi) in Hdrop. congruence. }
  simpl in Hrun. destruct (decide _) as [[Hp Hfresh]|Hskip].
  - destruct (find_partner (partner_id p) population) as [[j q]|e] eqn:Hfind;
      [|done].
    apply find_partner_Ok in Hfind as (Hj & Hid & Hfirst). simpl in Hrun.
    destruct (couples_from population (S i) rest _) as [cs|e] eqn:Hrest;
      [|done].
    simpl in Hrun. injection Hrun as <-.
    destruct (IH (S i) _ cs Hdrop' Hrest) as [Hall Hsorted].
    split.
    + constructor.
      * split; [done|]. exists p, q. by split_and!.
      * eapply Forall_impl; [exact Hall|].
        intros c [Hle (p' & q' & ? & ? & ? & ? & ? & Hnew)].
        split; [simpl in *; lia|]. exists p', q'. split_and!; try done.
        intros Hv. apply Hnew. rewrite !elem_of_union. auto.
    + constructor; [done|].
      eapply Forall_impl; [exact Hall|].
      intros c [Hle (p' & q' & Hc1 & _ & _ & _ & _ & Hnew)].
      split; [simpl in *; lia|].
      intros p0 q0 p1 Hp0 Hq0 Hp1. simpl in *.
      assert (p0 = p) as -> by congruence.
      assert (q0 = q) as -> by congruence.
      assert (p1 = p') as -> by congruence.
      split; intros Heq; apply Hnew;
        rewrite !elem_of_union, !elem_of_singleton; auto.
  - destruct (IH (S i) visited couples Hdrop' Hrun) as [Hall Hsorted].
    split; [|done].
    eapply Forall_impl; [exact Hall|]. intros c [Hle Hc]. split; [lia|done].
Qed.

Lemma couples_from_nil population i rows visited :
  couples_from population i rows visited = Ok [] →
  Forall (λ p, partner_id p = -1 ∨ id p ∈ visited) rows.
Proof.
  revert i visited. induction rows as [|p rest IH]; intros i visited Hrun.
  { constructor. }
  simpl in Hrun. destruct (decide _) as [[Hp Hfresh]|Hskip].
  - destruct (find_partner (partner_id p) population) as [[j q]|e];
      [|done].
    simpl in Hrun.
    by destruct (couples_from population (S i) rest _).
  - constructor; [|by eapply IH].
    destruct (decide (partner_id p = -1)); [by left|right].
    destruct (decide (id p ∈ visited)); [done|]. exfalso. by apply Hskip.
Qed.

Lemma couples_from_no_partner population i rows visited :
  Forall (λ p, partner_id p = -1) rows →
  couples_from population i rows visited = Ok [].
Proof.
  intros Hall. revert i.
  induction Hall as [|p rest Hp _ IH]; intros i; [done|].
  simpl. destruct (decide _) as [[? _]|_]; [done|]. apply IH.
Qed.

Lemma emitted_none a b couples :
  Forall (λ c, c ≠ (a, b) ∧ c ≠ (b, a)) couples → emitted a b couples = 0%nat.
Proof.
  unfold emitted. induction 1 as [|c rest [? ?] _ IH]; [done|].
  rewrite filter_cons_False by tauto. done.
Qed.

Lemma emitted_at_most_once population couples a b :
  Forall (couple_entry population ∅) couples →
  StronglySorted (later_apart population) couples →
  (emitted a b couples ≤ 1)%nat.
Proof.
  intros Hall Hsorted.
  induction Hsorted as [|c rest _ IH Hlater]; [unfold emitted; simpl; lia|].
  apply Forall_cons in Hall as [Hc Hall]. specialize (IH Hall).
  rewrite emitted_cons. destruct (decide _) as [Hmatch|_]; [|lia].
  rewrite emitted_none; [lia|].
  destruct Hc as (p & q & Hp & Hq & _).
  rewrite Forall_forall in Hlater, Hall. apply Forall_forall.
  intros c' Hc'. destruct (Hlater c' Hc') as [Hlt Hapart].
  destruct (Hall c' Hc') as (p' & q' & Hp' & _).
  destruct (Hapart p q p' Hp Hq Hp') as [Hne1 Hne2].
  split; intros ->; destruct Hmatch as [-> | ->]; simpl in *;
    try lia; congruence.
Qed.

(** X11: on any table on which it returns, [get_all_couples] gives entries
    whose first row has a partner id and whose second row is the first row
    of the table carrying that id; the first rows come in table order; no
    pair of rows is listed twice, in either order; and the list is empty
    exactly when no row has a partner id. *)
Theorem get_all_couples_structure
    (population : list person) (couples : list (nat * nat)) :
  get_all_couples population = Ok couples →
  Forall (couple_entry population ∅) couples
  ∧ StronglySorted lt couples.*1
  ∧ (∀ a b, (emitted a b couples ≤ 1)%nat)
  ∧ (couples = [] ↔ Forall (λ p, partner_id p = -1) population).
Proof.
  intros Hrun. unfold get_all_couples in Hrun.
  destruct (couples_from_structure population 0 population ∅ couples
              eq_refl Hrun) as [Hall Hsorted].
  assert (Forall (couple_entry population ∅) couples) as Hentries.
  { eapply Forall_impl; [exact Hall|]. by intros c [_ Hc]. }
  split_and!.
  - done.
  - clear Hall Hentries Hrun.
    induction Hsorted as [|c rest _ IH Hlater]; simpl; constructor; [done|].
    apply Forall_fmap. eapply Forall_impl; [exact Hlater|].
    by intros c' [Hlt _].
  - intros a b. by eapply emitted_at_most_once.
  - split.
    + intros ->. apply couples_from_nil in Hrun.
      eapply Forall_impl; [exact Hrun|]. intros p [Hp | Hp]; [done|].
      by apply not_elem_of_empty in Hp.
    + intros Hnone.
      rewrite (couples_from_no_partner population 0 population ∅ Hnone)
        in Hrun.
      by injection Hrun.
Qed.

Lemma get_all_couples_structure_witness :
  Forall (couple_entry crossed_table ∅) [(0, 2); (1, 3)]%nat
  ∧ StronglySorted lt [(0, 2); (1, 3)]%nat.*1.
Proof.
  destruct (get_all_couples_structure crossed_table [(0, 2); (1, 3)]%nat
              ltac:(vm_compute; reflexivity)) as (Hentries & Hsorted & _).
  by split.
Defined.

(** ** Reproduction: what is counted and what can fail *)

Lemma total_children_app population population' :
  total_children (population ++ population')
  = total_children population + total_children population'.
Proof.
  unfold total_children.
  induction population as [|p rest IH]; simpl; [done|]. rewrite IH. lia.
Qed.

Lemma total_children_alter population i p :
  population !! i = Some p →
  total_children (alter add_child i population)
  = total_children population + 1.
Proof.
  revert i. induction population as [|q rest IH]; intros i Hi; [done|].
  destruct i as [|i].
  - injection Hi as ->. unfold total_children. simpl. lia.
  - specialize (IH i Hi). unfold total_children in *.
    change (alter add_child (S i) (q :: rest))
      with (q :: alter add_child i rest).
    simpl. rewrite IH. lia.
Qed.

Lemma total_children_newcomers new :
  Forall newcomer new → total_children new = 0.
Proof.
  unfold total_children.
  induction 1 as [|p rest [(_ & _ & _ & _ & Hc) _] _ IH]; simpl; [done|].
  rewrite IH, Hc. done.
Qed.

Section Accounting.
Context {G : Type} `{Entropy G}.

(** One iteration: no child or one, two counts per child, and no count of
    any row going down. *)
Lemma reproduce_couple_account (st : repro_state) couple :
  ∃ new,
    r_new_children (reproduce_couple st couple) = r_new_children st ++ new
    ∧ (length new ≤ 1)%nat
    ∧ Forall newcomer new
    ∧ total_children (r_population (reproduce_couple st couple))
      = total_children (r_population st) + 2 * Z.of_nat (length new)
    ∧ ∀ i p, r_population st !! i = Some p →
        ∃ v, r_population (reproduce_couple st couple) !! i
             = Some (set_children_count v p)
          ∧ children_count p ≤ v.
Proof.
  destruct couple as [man woman]. unfold reproduce_couple.
  assert (∃ new, r_new_children st = r_new_children st ++ new
            ∧ (length new ≤ 1)%nat ∧ Forall newcomer new
            ∧ total_children (r_population st)
              = total_children (r_population st) + 2 * Z.of_nat (length new)
            ∧ ∀ i p, r_population st !! i = Some p →
                ∃ v, r_population st !! i = Some (set_children_count v p)
                     ∧ children_count p ≤ v) as Hsame.
  { exists []. rewrite app_nil_r. split_and!; try done; [simpl; lia..|].
    intros i p Hi. exists (children_count p).
    by rewrite set_children_count_same. }
  destruct (r_population st !! man) as [m|] eqn:Hm; [|done].
  destruct (r_population st !! woman) as [w|] eqn:Hw; [|done].
  destruct ((alive m =? 1) && (alive w =? 1)); [|done].
  destruct ((fertility m =? 1) && (fertility w =? 1)); [|done].
  destruct (random (r_gen st)) as [k g1].
  destruct (k <? cut_0_5); [|done].
  pose proof (randint_range 0 1 g1) as Hcoin.
  destruct (randint 0 1 g1) as [coin g2].
  pose proof (randint_range 70 100 g2) as Hh.
  destruct (randint 70 100 g2) as [h g3]. simpl in *.
  exists [new_child (r_next_id st) (if coin =? 1 then "M" else "F") h].
  split_and!; try done.
  - constructor; [|done]. split_and!; try done; [|simpl; lia..].
    unfold valid_person. simpl. destruct (coin =? 1); auto.
  - assert (is_Some (alter add_child man (r_population st) !! woman))
      as [w' Hw'].
    { apply lookup_lt_is_Some. rewrite length_alter.
      by eapply lookup_lt_Some. }
    rewrite (total_children_alter _ woman w' Hw').
    rewrite (total_children_alter _ man m Hm). simpl. lia.
  - intros i p Hi.
    destruct (decide (woman = i)) as [->|Hnw];
      destruct (decide (man = i)) as [->|Hnm];
      rewrite ?list_lookup_alter_eq, ?list_lookup_alter_ne by done;
      rewrite ?list_lookup_alter_eq, ?Hi; simpl.
    + exists (children_count p + 1 + 1). split; [done|lia].
    + exists (children_count p + 1). split; [done|lia].
    + exists (children_count p + 1). split; [done|lia].
    + exists (children_count p). rewrite set_children_count_same.
      split; [done|lia].
Qed.

Lemma reproduce_loop_account (st : repro_state) couples :
  ∃ new,
    r_new_children (reproduce_loop st couples) = r_new_children st ++ new
    ∧ (length new ≤ length couples)%nat
    ∧ Forall newcomer new
    ∧ total_children (r_population (reproduce_loop st couples))
      = total_children (r_population st) + 2 * Z.of_nat (length new)
    ∧ ∀ i p, r_population st !! i = Some p →
        ∃ v, r_population (reproduce_loop st couples) !! i
             = Some (set_children_count v p)
          ∧ children_count p ≤ v.
Proof.
  unfold reproduce_loop. revert st.
  induction couples as [|c couples IH]; intros st; simpl.
  { exists []. rewrite app_nil_r. split_and!; try done; [simpl; lia|].
    intros i p Hi. exists (children_count p).
    by rewrite set_children_count_same. }
  destruct (reproduce_couple_account st c)
    as (new1 & Hk1 & Hl1 & Hb1 & Ht1 & Hr1).
  destruct (IH (reproduce_couple st c))
    as (new2 & Hk2 & Hl2 & Hb2 & Ht2 & Hr2).
  exists (new1 ++ new2).
  rewrite Hk2, Hk1, Ht2, Ht1, length_app, <- app_assoc.
  split_and!; [done|lia|by apply Forall_app|lia|].
  intros i p Hi. destruct (Hr1 i p Hi) as (v1 & Hv1 & Hle1).
  destruct (Hr2 i _ Hv1) as (v2 & Hv2 & Hle2).
  exists v2. rewrite Hv2, set_children_count_twice. split; [done|].
  simpl in Hle2. lia.
Qed.

(** What [reproduce] returns, counted. *)
Lemma reproduce_account population couples (g : G) population' g' :
  reproduce population couples g = Ok (population', g') →
  ∃ rows new,
    population' = rows ++ new
    ∧ length rows = length population
    ∧ (length new ≤ length couples)%nat
    ∧ Forall newcomer new
    ∧ total_children rows
      = total_children population + 2 * Z.of_nat (length new)
    ∧ ∀ i p, population !! i = Some p →
        ∃ v, rows !! i = Some (set_children_count v p)
             ∧ children_count p ≤ v.
Proof.
  unfold reproduce. destruct (max_id population) as [m|]; [|done].
  simpl. intros [= <- <-].
  set (st := mk_repro population (m + 1) [] g).
  destruct (reproduce_loop_account st couples)
    as (new & Hk & Hl & Hb & Ht & Hr).
  exists (r_population (reproduce_loop st couples)), new.
  split_and!; try done.
  - by rewrite Hk.
  - apply reproduce_loop_length.
Qed.

End Accounting.

(** X12: [reproduce] raises [ValueError] on an empty table whatever the
    couples, and with no couple it returns a non-empty table as it is,
    without a draw.  When it returns, the table has grown by at most one row
    per couple, and the children counted over the whole table have grown by
    exactly two per new row. *)
Theorem reproduce_accounting {G} `{Entropy G}
    (population : list person) (couples : list (nat * nat)) (g : G) :
  (population = [] → reproduce population couples g = Raise ValueError)
  ∧ (population ≠ [] → reproduce population [] g = Ok (population, g))
  ∧ (∀ population' g',
       reproduce population couples g = Ok (population', g') →
       (length population ≤ length population'
        ≤ length population + length couples)%nat
       ∧ total_children population'
         = total_children population
           + 2 * (Z.of_nat (length population')
                  - Z.of_nat (length population))).
Proof.
  split_and!.
  - by intros ->.
  - intros Hne. unfold reproduce.
    destruct (max_id_nonempty population Hne) as [m ->]. simpl.
    by rewrite app_nil_r.
  - intros population' g' Hrep.
    destruct (reproduce_account population couples g population' g' Hrep)
      as (rows & new & -> & Hlen & Hl & Hb & Ht & _).
    rewrite length_app, total_children_app, Hlen, Ht.
    rewrite (total_children_newcomers new Hb). split; lia.
Qed.

Lemma reproduce_accounting_witness :
  reproduce couple_5_6 [] ([] : list Z) = Ok (couple_5_6, []).
Proof.
  apply (reproduce_accounting couple_5_6 [(0, 1)%nat] ([] : list Z)). done.
Defined.

(** ** A whole step, row by row *)

Section WholeStep.
Context {G : Type} `{Entropy G}.

(** The result of a step: the rows that entered, each evolved, followed by
    the newcomers; the [alive] column of the old rows is the one the
    mortality pass left. *)
Lemma step_decompose population (g : G) population' g' :
  step population g = Ok (population', g') →
  ∃ rows new,
    population' = rows ++ new
    ∧ length rows = length population
    ∧ Forall newcomer new
    ∧ alive <$> rows = alive <$> (death population g).1
    ∧ ∀ i p, population !! i = Some p →
        ∃ p', rows !! i = Some p' ∧ row_evolves p p'.
Proof.
  unfold step.
  pose proof (death_length population g) as Hdl.
  pose proof (λ i p, death_lookup population g i p) as Hdeath.
  destruct (death population g) as [T1 g1]. simpl in Hdl, Hdeath |- *.
  set (T3 := fertility_update (aging_update T1)).
  pose proof (pairing_length T3 g1) as Hlen4.
  pose proof (pairing_alive T3 g1) as Halive4.
  pose proof (λ i p, pairing_lookup T3 g1 i p) as Hpair.
  destruct (pairing T3 g1) as [T4 g2]. simpl in Hlen4, Halive4, Hpair.
  destruct (get_all_couples T4) as [couples|]; [|done]. simpl.
  intros (rows & new & -> & Hlen & _ & Hnew & _ & Hrows)%reproduce_account.
  assert (length T3 = length population) as Hlen3
    by (unfold T3, fertility_update, aging_update;
        by rewrite !length_fmap).
  exists rows, new. split_and!; try done.
  - congruence.
  - transitivity (alive <$> T4).
    + apply list_eq. intros i. rewrite !list_lookup_fmap.
      destruct (T4 !! i) as [p4|] eqn:H4.
      * by destruct (Hrows i p4 H4) as (v & -> & _).
      * apply lookup_ge_None in H4.
        rewrite (proj2 (lookup_ge_None _ _)); [done|lia].
    + rewrite Halive4. unfold T3, fertility_update, aging_update.
      rewrite <- !list_fmap_compose. apply list_fmap_ext.
      intros _ p _. simpl. rewrite fertility_one_spec. simpl.
      unfold aging_one. by destruct (alive p =? 1).
  - intros i p Hi.
    destruct (Hdeath i p Hi) as [gi Hd].
    destruct (death_one_fields p gi) as (v & Hv & Hor).
    rewrite Hv in Hd.
    assert (T3 !! i = Some (fertility_one (aging_one (set_alive v p))))
      as H3.
    { unfold T3, fertility_update, aging_update.
      by rewrite !list_lookup_fmap, Hd. }
    assert (∃ v4, T4 !! i
                  = Some (set_partner_id v4
                            (fertility_one (aging_one (set_alive v p)))))
      as [v4 H4].
    { destruct (Hpair i _ H3)
        as [Hsame | (_ & _ & j & q & _ & _ & _ & _ & Htied & _)].
      - eexists. by rewrite set_partner_id_same.
      - eauto. }
    destruct (Hrows i _ H4) as (v5 & H5 & Hle).
    eexists. split; [exact H5|].
    unfold row_evolves. simpl in *.
    rewrite fertility_one_spec in *. simpl in *.
    unfold aging_one in *. simpl in *.
    destruct (v =? 1); simpl in *; split_and!; try done;
      destruct Hor as [-> | ->]; auto.
Qed.

End WholeStep.

(** X13: across a step no row leaves the table and every row that was
    there keeps its id, sex and health; its [alive] flag stays or drops to
    0, its age stays or grows by 5, and its [children_count] does not go
    down.  The rows appended to the table are newborns (age 0, alive, not
    fertile, no partner, no children) of sex "M" or "F" and of health
    within 70..100. *)
Theorem step_rows_evolve {G} `{Entropy G}
    (population population' : list person) (g g' : G) :
  step population g = Ok (population', g') →
  (length population ≤ length population')%nat
  ∧ (∀ i p, population !! i = Some p →
       ∃ p', population' !! i = Some p' ∧ row_evolves p p')
  ∧ Forall newcomer (drop (length population) population').
Proof.
  intros (rows & new & -> & Hlen & Hnew & _ & Hrows)%step_decompose.
  split_and!.
  - rewrite length_app. lia.
  - intros i p Hi. destruct (Hrows i p Hi) as (p' & Hp' & Hev).
    exists p'. split; [by apply lookup_app_l_Some|done].
  - by rewrite <- Hlen, drop_app_length.
Qed.

Lemma step_rows_evolve_witness :
  Forall newcomer (drop (length couple_5_6) couple_5_6_after).
Proof.
  apply (step_rows_evolve couple_5_6 couple_5_6_after script_birth []).
  vm_compute. reflexivity.
Defined.

(** X14: the census after a step is the census that the mortality pass left
    plus the number of rows the step appended, hence at most the census on
    entry plus the births: only [death] takes anyone out of the count and
    only [reproduce] adds to it. *)
Theorem step_census {G} `{Entropy G}
    (population population' : list person) (g g' : G) :
  step population g = Ok (population', g') →
  census population'
  = (census (death population g).1
     + (length population' - length population))%nat
  ∧ (census population'
     ≤ census population + (length population' - length population))%nat.
Proof.
  intros (rows & new & -> & Hlen & Hnew & Halive & _)%step_decompose.
  assert (census (rows ++ new)
          = (census (death population g).1
             + (length (rows ++ new) - length population))%nat) as Hcount.
  { rewrite census_app, (census_alive_ext _ _ Halive), length_app, Hlen.
    rewrite (census_all_alive new); [lia|].
    eapply Forall_impl; [exact Hnew|].
    by intros p ((_ & ? & _) & _). }
  split; [done|]. rewrite Hcount.
  pose proof (death_census population g). lia.
Qed.

Lemma step_census_witness :
  census couple_5_6_after
  = (census (death couple_5_6 script_birth).1
     + (length couple_5_6_after - length couple_5_6))%nat.
Proof.
  apply (step_census couple_5_6 couple_5_6_after script_birth []).
  vm_compute. reflexivity.
Defined.

Lemma step_valid {G} `{Entropy G}
    (population population' : list person) (g g' : G) :
  Forall valid_person population →
  step population g = Ok (population', g') →
  Forall valid_person population'.
Proof.
  intros Hvalid (rows & new & -> & Hlen & Hnew & _ & Hrows)%step_decompose.
  apply Forall_app. split.
  - apply Forall_lookup. intros i p' Hi'.
    assert (is_Some (population !! i)) as [p Hi].
    { apply lookup_lt_is_Some. rewrite <- Hlen. by eapply lookup_lt_Some. }
    destruct (Hrows i p Hi) as (p'' & Hp'' & _ & Hsex & _).
    assert (p'' = p') as -> by congruence.
    rewrite Forall_lookup in Hvalid. specialize (Hvalid i p Hi).
    unfold valid_person in *. by rewrite Hsex.
  - eapply Forall_impl; [exact Hnew|]. by intros p (_ & ? & _).
Qed.

(** X15: when every sex of the table is "M" or "F", so is every sex of the
    table after a step, and the snapshot that [save_population] writes of
    it loads back to it, field for field. *)
Theorem step_snapshot_reloads {G} `{Entropy G}
    (population population' : list person) (g g' : G) :
  Forall valid_person population →
  step population g = Ok (population', g') →
  Forall valid_person population'
  ∧ load_population (Some (save_population population')) = Ok population'.
Proof.
  intros Hvalid Hstep.
  pose proof (step_valid population population' g g' Hvalid Hstep) as Hvalid'.
  split; [done|]. by apply load_save.
Qed.

Lemma step_snapshot_reloads_witness :
  load_population (Some (save_population couple_5_6_after))
  = Ok couple_5_6_after.
Proof.
  apply (step_snapshot_reloads couple_5_6 couple_5_6_after script_birth []).
  - apply Forall_cons. split; [by left|].
    apply Forall_cons. split; [by right|]. apply Forall_nil_2.
  - vm_compute. reflexivity.
Defined.

(** ** The loop of [main] *)

Section MainLoop.
Context {G : Type} `{Entropy G}.





End MainLoop.



(** ** The first line of a snapshot *)

Lemma readlines_first line rest :
  string_forall not_newline line = true →
  readlines (line +:+ String newline rest)
  = (line +:+ String newline "") :: readlines rest.
Proof.
  induction line as [|c line IH]; simpl; [done|].
  intros [Hc Hline]%andb_true_iff. rewrite (IH Hline).
  unfold not_newline in Hc. by destruct (Ascii.eqb c newline).
Qed.

Lemma readlines_single line :
  string_forall not_newline line = true → tail (readlines line) = [].
Proof.
  induction line as [|c line IH]; simpl; [done|].
  intros [Hc Hline]%andb_true_iff. specialize (IH Hline).
  unfold not_newline in Hc. destruct (Ascii.eqb c newline); [done|].
  destruct (readlines line) as [|l ls]; [done|]. simpl in *. done.
Qed.

(** X17: [load_population] drops the first line of the snapshot without
    reading it: whatever that line holds (the header, something else, or a
    record), the table loaded is that of the lines after it, and a snapshot
    of one line or of none loads to the empty table. *)
Theorem load_population_skips_first_line (line body : string) :
  string_forall not_newline line = true →
  load_population (Some (line +:+ String newline body))
  = load_lines (readlines body)
  ∧ load_population (Some line) = Ok []
  ∧ load_population (Some "") = Ok [].
Proof.
  intros Hline. unfold load_population. split_and!.
  - by rewrite (readlines_first line body Hline).
  - by rewrite (readlines_single line Hline).
  - done.
Qed.

Lemma load_population_skips_first_line_witness :
  load_population (Some ("5,M,30,1,80,1,-1,0" +:+ String newline ""))
  = load_lines (readlines "").
Proof.
  apply (load_population_skips_first_line "5,M,30,1,80,1,-1,0" "").
  vm_compute. reflexivity.
Defined.

(** ** Every record is loaded *)

Lemma load_lines_length lines population :
  load_lines lines = Ok population →
  length population
  = length (filter (λ line, strip line ≠ "") lines).
Proof.
  revert population.
  induction lines as [|line rest IH]; intros population Hload.
  { simpl in Hload. by injection Hload as <-. }
  simpl in Hload. rewrite filter_cons.
  destruct (String.eqb_spec (strip line) "") as [Hblank|Hrecord].
  - rewrite decide_False by (intros Hne; by apply Hne). by apply IH.
  - rewrite decide_True by done.
    destruct (parse_person (split comma (strip line))) as [p|]; [|done].
    simpl in Hload. destruct (load_lines rest) as [T|]; [|done].
    simpl in Hload. injection Hload as <-. simpl. by rewrite (IH T).
Qed.

(** X18: when [load_population] returns a table, the table has one row for
    each line after the first that is not blank, in the order of the lines:
    no record is left out, and a blank line (white space only) is never a
    record. *)
Theorem load_population_every_record
    (text : string) (population : list person) :
  load_population (Some text) = Ok population →
  length population
  = length (filter (λ line, strip line ≠ "") (tail (readlines text)))
  ∧ ∀ i p, population !! i = Some p →
      ∃ line, filter (λ line, strip line ≠ "") (tail (readlines text)) !! i
              = Some line
        ∧ parse_person (split comma (strip line)) = Ok p.
Proof.
  unfold load_population. generalize (tail (readlines text)) as lines.
  intros lines Hload. split; [by apply load_lines_length|].
  revert population Hload.
  induction lines as [|line rest IH]; intros population Hload i p Hi.
  { simpl in Hload. injection Hload as <-. done. }
  simpl in Hload. rewrite filter_cons.
  destruct (String.eqb_spec (strip line) "") as [Hblank|Hrecord].
  - rewrite decide_False by (intros Hne; by apply Hne). by eapply IH.
  - rewrite decide_True by done.
    destruct (parse_person (split comma (strip line))) as [q|] eqn:Hq;
      [|done].
    simpl in Hload. destruct (load_lines rest) as [T|] eqn:HT; [|done].
    simpl in Hload. injection Hload as <-.
    destruct i as [|i]; simpl in Hi.
    + injection Hi as ->. by exists line.
    + by apply (IH T).
Qed.

Lemma load_population_every_record_witness :
  length couple_5_6
  = length (filter (λ line, strip line ≠ "")
              (tail (readlines (save_population couple_5_6)))).
Proof.
  apply (load_population_every_record (save_population couple_5_6)).
  vm_compute. reflexivity.
Defined.

(** ** Partner links are kept *)

(** X19: a step never dissolves or redirects a partner link: a row that
    enters the step with a partner id leaves it with the same partner id,
    whether it or its partner is alive or not. *)
Theorem step_keeps_partner {G} `{Entropy G}
    (population population' : list person) (g g' : G)
    (i : nat) (p : person) :
  step population g = Ok (population', g') →
  population !! i = Some p → partner_id p ≠ -1 →
  ∃ p', population' !! i = Some p' ∧ partner_id p' = partner_id p.
Proof.
  intros Hstep Hi Hp. unfold step in Hstep.
  destruct (death_lookup population g i p Hi) as [gi Hd].
  destruct (death_one_fields p gi) as (v & Hv & _). rewrite Hv in Hd.
  destruct (death population g) as [T1 g1]. simpl in Hd.
  assert (fertility_update (aging_update T1) !! i
          = Some (fertility_one (aging_one (set_alive v p)))) as H3.
  { unfold fertility_update, aging_update.
    by rewrite !list_lookup_fmap, Hd. }
  assert (partner_id (fertility_one (aging_one (set_alive v p)))
          = partner_id p) as Hsame.
  { rewrite fertility_one_spec. simpl. unfold aging_one.
    by destruct (alive (set_alive v p) =? 1). }
  destruct (pairing_lookup _ g1 i _ H3) as [H4 | (Hnone & _)];
    [|congruence].
  destruct (pairing (fertility_update (aging_update T1)) g1) as [T4 g2].
  simpl in H4.
  destruct (get_all_couples T4) as [couples|]; [|done]. simpl in Hstep.
  destruct (reproduce_fields T4 couples g2 population' g' i _ Hstep H4)
    as (v5 & H5 & _).
  eexists. split; [exact H5|]. done.
Qed.

Lemma step_keeps_partner_witness :
  ∃ p', couple_5_6_after !! 0%nat = Some p' ∧ partner_id p' = 6.
Proof.
  apply (step_keeps_partner couple_5_6 couple_5_6_after script_birth [] 0
           (mk_person 5 "M" 30 1 80 1 6 0)).
  - vm_compute. reflexivity.
  - reflexivity.
  - simpl. lia.
Defined.
